(** * Tic-tac-toe: the terminal-state evaluator and the minimax search

    A shallow embedding of [src/components/board.tsx]: the functions
    [checkWinnerForMiniMax], [isBoardFull], [minimax] and [getBestMove],
    and the winner/draw effect of the component.

    - A [Board] is the JS array of cells, a [list CellValue]; [board[i]] is
      the list lookup [board !! i] ([None] is JS [undefined], which only an
      out-of-range read produces) and the assignment [board[i] = v] is
      [<[i:=v]> board], used by the source only at indices below
      [board.length].
    - The search mutates the one array it is given.  The embedding threads
      that array through every call: [minimax] and [getBestMove] return the
      array as they leave it together with their result.
    - Scores are JS numbers.  The search only ever produces integers and the
      two infinities, which is the type [num]; [depth] is an integer.
    - [minimax] recurses on a board with one more mark; the embedding takes a
      [fuel] bound on the recursion depth and returns [None] when it is
      exhausted.  The theorems show that any fuel above the number of empty
      cells is enough. *)

From Stdlib Require Import ZArith Bool Lia Sorted.
From stdpp Require Import list.

Open Scope Z_scope.

(** ** Data model *)

Inductive Player := X | O.

(** [CellValue = Player | null]: [None] is [null]. *)
Abbreviation CellValue := (option Player).
Abbreviation Board := (list CellValue).

Definition Player_eqb (p q : Player) : bool :=
  match p, q with
  | X, X | O, O => true
  | _, _ => false
  end.

(** JS numbers as the search uses them: integers, [-Infinity], [Infinity]. *)
Inductive num := NegInf | Fin (z : Z) | PosInf.

(** [Math.max] *)
Definition num_max (a b : num) : num :=
  match a, b with
  | PosInf, _ | _, PosInf => PosInf
  | NegInf, c | c, NegInf => c
  | Fin x, Fin y => Fin (Z.max x y)
  end.

(** [Math.min] *)
Definition num_min (a b : num) : num :=
  match a, b with
  | NegInf, _ | _, NegInf => NegInf
  | PosInf, c | c, PosInf => c
  | Fin x, Fin y => Fin (Z.min x y)
  end.

(** [a <= b] *)
Definition num_leb (a b : num) : bool :=
  match a, b with
  | NegInf, _ => true
  | _, PosInf => true
  | Fin x, Fin y => x <=? y
  | _, _ => false
  end.

(** [a > b] *)
Definition num_gtb (a b : num) : bool :=
  match a, b with
  | NegInf, _ => false
  | _, PosInf => false
  | Fin x, Fin y => y <? x
  | _, _ => true
  end.

(** ** The evaluator *)

(** A value read from the array: [None] is [undefined]. *)
Definition truthy (v : option CellValue) : bool :=
  match v with
  | Some (Some _) => true
  | _ => false
  end.

(** Strict equality [===] on values read from the array. *)
Definition strict_eq (v w : option CellValue) : bool :=
  match v, w with
  | None, None => true
  | Some None, Some None => true
  | Some (Some p), Some (Some q) => Player_eqb p q
  | _, _ => false
  end.

Definition winPatterns : list (nat * nat * nat) :=
  [ (0, 1, 2); (3, 4, 5); (6, 7, 8);
    (0, 3, 6); (1, 4, 7); (2, 5, 8);
    (0, 4, 8); (2, 4, 6) ]%nat.

(** The condition of the [if] in the loop of [checkWinnerForMiniMax]. *)
Definition pattern_hit (board : Board) (pat : nat * nat * nat) : bool :=
  let '(a, b, c) := pat in
  truthy (board !! a)
  && strict_eq (board !! a) (board !! b)
  && strict_eq (board !! a) (board !! c).

(** The [for ... of] loop with its early [return]. *)
Fixpoint checkWinner_loop (pats : list (nat * nat * nat)) (board : Board)
  : option Player :=
  match pats with
  | [] => None
  | pat :: rest =>
      if pattern_hit board pat
      then (let '(a, _, _) := pat in mjoin (board !! a))
      else checkWinner_loop rest board
  end.

Definition checkWinnerForMiniMax (board : Board) : option Player :=
  checkWinner_loop winPatterns board.

(** [board.every((cell) => cell !== null)] *)
Definition isBoardFull (board : Board) : bool :=
  forallb (fun cell => match cell with Some _ => true | None => false end) board.

(** The winner/draw effect of the component: the pair [(winner, isDraw)]. *)
Definition checkOutcome (board : Board) : option Player * bool :=
  let winner := checkWinnerForMiniMax board in
  let isDraw := negb (truthy (Some winner)) && isBoardFull board in
  (winner, isDraw).

(** ** The search *)

(** [board[i] === null] *)
Definition is_null (v : option CellValue) : bool :=
  match v with
  | Some None => true
  | _ => false
  end.

Section Loops.
(** The recursive call, as the loops see it. *)
Variable rec : Board -> Z -> bool -> num -> num -> option (Board * num).

(** The loop of the maximizing branch, from index [i] on.  [steps] bounds
    the number of iterations. *)
Fixpoint max_loop (steps : nat) (i : nat) (board : Board) (depth : Z)
    (alpha beta bestScore : num) : option (Board * num) :=
  if negb (i <? length board)%nat then Some (board, bestScore)
  else match steps with
  | 0%nat => None
  | S steps' =>
      if is_null (board !! i) then
        let board1 := <[i := Some X]> board in
        match rec board1 (depth + 1) false alpha beta with
        | None => None
        | Some (board2, score) =>
            let board3 := <[i := None]> board2 in
            let bestScore' := num_max score bestScore in
            let alpha' := num_max alpha score in
            if num_leb beta alpha' then Some (board3, bestScore')
            else max_loop steps' (S i) board3 depth alpha' beta bestScore'
        end
      else max_loop steps' (S i) board depth alpha beta bestScore
  end.

(** The loop of the minimizing branch. *)
Fixpoint min_loop (steps : nat) (i : nat) (board : Board) (depth : Z)
    (alpha beta bestScore : num) : option (Board * num) :=
  if negb (i <? length board)%nat then Some (board, bestScore)
  else match steps with
  | 0%nat => None
  | S steps' =>
      if is_null (board !! i) then
        let board1 := <[i := Some O]> board in
        match rec board1 (depth + 1) true alpha beta with
        | None => None
        | Some (board2, score) =>
            let board3 := <[i := None]> board2 in
            let bestScore' := num_min score bestScore in
            let beta' := num_min beta score in
            if num_leb beta' alpha then Some (board3, bestScore')
            else min_loop steps' (S i) board3 depth alpha beta' bestScore'
        end
      else min_loop steps' (S i) board depth alpha beta bestScore
  end.

(** The loop of [getBestMove]; [rec] is called at depth 0, minimizing,
    with the full window. *)
Fixpoint best_loop (steps : nat) (i : nat) (board : Board)
    (bestScore : num) (bestMove : Z) : option (Board * Z) :=
  if negb (i <? length board)%nat then Some (board, bestMove)
  else match steps with
  | 0%nat => None
  | S steps' =>
      if is_null (board !! i) then
        let board1 := <[i := Some X]> board in
        match rec board1 0 false NegInf PosInf with
        | None => None
        | Some (board2, score) =>
            let board3 := <[i := None]> board2 in
            if num_gtb score bestScore
            then best_loop steps' (S i) board3 score (Z.of_nat i)
            else best_loop steps' (S i) board3 bestScore bestMove
        end
      else best_loop steps' (S i) board bestScore bestMove
  end.
End Loops.

Fixpoint minimax (fuel : nat) (board : Board) (depth : Z) (isMaximizing : bool)
    (alpha beta : num) : option (Board * num) :=
  match fuel with
  | 0%nat => None
  | S fuel' =>
      match checkWinnerForMiniMax board with
      | Some X => Some (board, Fin (10 - depth))
      | Some O => Some (board, Fin (depth - 10))
      | None =>
          if isBoardFull board then Some (board, Fin 0)
          else if isMaximizing
          then max_loop (minimax fuel') (length board) 0 board depth
                 alpha beta NegInf
          else min_loop (minimax fuel') (length board) 0 board depth
                 alpha beta PosInf
      end
  end.

Definition getBestMove (fuel : nat) (board : Board) : option (Board * Z) :=
  best_loop (minimax fuel) (length board) 0 board NegInf (-1).

Definition emptyBoard : Board := replicate 9 None.

(** The score [getBestMove] gives cell [i]: [X] is placed there and
    [minimax] is called at depth 0, opponent to move, with the full window. *)
Definition cellScore (fuel : nat) (board : Board) (i : nat) : option num :=
  snd <$> minimax fuel (<[i := Some X]> board) 0 false NegInf PosInf.

(** ** Boards used in examples *)

(** [X,X,_,O,O,_,_,_,_]: X wins at 2, O threatens at 5. *)
Definition board_win_or_block : Board :=
  [Some X; Some X; None; Some O; Some O; None; None; None; None].

(** [X,X,O,_,O,_,_,X,O]: O threatens at 5 and at 6, X has no winning move. *)
Definition board_double_threat : Board :=
  [Some X; Some X; Some O; None; Some O; None; None; Some X; Some O].

(** [X,O,_,_,O,_,_,_,X]: O threatens at 7 only, X has no winning move. *)
Definition board_one_threat : Board :=
  [Some X; Some O; None; None; Some O; None; None; None; Some X].

(** [X,X,X,O,O,X,O,X,O]: full, with the top row for X. *)
Definition board_full_won : Board :=
  [Some X; Some X; Some X; Some O; Some O; Some X; Some O; Some X; Some O].

(** ** Empty cells *)

(** The indices [j >= i] with [board[j] === null], in increasing order: the
    cells the loops visit from index [i] on. *)
Definition emptyCells_from (i : nat) (board : Board) : list nat :=
  List.filter (fun j => is_null (board !! j)) (seq i (length board - i)).

Definition emptyCells (board : Board) : list nat := emptyCells_from 0 board.

Fixpoint count_empty (board : Board) : nat :=
  match board with
  | [] => 0
  | None :: rest => S (count_empty rest)
  | Some _ :: rest => count_empty rest
  end.

(** ** The search as a function of the board value

    The same computation without the threaded array: the children of a
    position are read off [emptyCells].  [minimax_alphabeta] below shows
    that [minimax] computes exactly this and hands the array back as it
    received it. *)

Section PureLoops.
Variable child : nat -> num -> num -> num.

Fixpoint ab_max (cells : list nat) (alpha beta bestScore : num) : num :=
  match cells with
  | [] => bestScore
  | i :: rest =>
      let score := child i alpha beta in
      let bestScore' := num_max score bestScore in
      let alpha' := num_max alpha score in
      if num_leb beta alpha' then bestScore'
      else ab_max rest alpha' beta bestScore'
  end.

Fixpoint ab_min (cells : list nat) (alpha beta bestScore : num) : num :=
  match cells with
  | [] => bestScore
  | i :: rest =>
      let score := child i alpha beta in
      let bestScore' := num_min score bestScore in
      let beta' := num_min beta score in
      if num_leb beta' alpha then bestScore'
      else ab_min rest alpha beta' bestScore'
  end.
End PureLoops.

Fixpoint alphabeta (fuel : nat) (board : Board) (depth : Z)
    (isMaximizing : bool) (alpha beta : num) : num :=
  match fuel with
  | 0%nat => Fin 0
  | S fuel' =>
      match checkWinnerForMiniMax board with
      | Some X => Fin (10 - depth)
      | Some O => Fin (depth - 10)
      | None =>
          if isBoardFull board then Fin 0
          else if isMaximizing
          then ab_max (fun i => alphabeta fuel' (<[i := Some X]> board)
                                  (depth + 1) false)
                 (emptyCells board) alpha beta NegInf
          else ab_min (fun i => alphabeta fuel' (<[i := Some O]> board)
                                  (depth + 1) true)
                 (emptyCells board) alpha beta PosInf
      end
  end.

(** The choice of [getBestMove] over a list of cells with their scores. *)
Fixpoint pick_best (score : nat -> num) (cells : list nat)
    (bestScore : num) (bestMove : Z) : Z :=
  match cells with
  | [] => bestMove
  | i :: rest =>
      if num_gtb (score i) bestScore
      then pick_best score rest (score i) (Z.of_nat i)
      else pick_best score rest bestScore bestMove
  end.

(** ** Plain minimax

    The reference the pruned search is compared with: the same base cases,
    and the maximum (AI to move) or minimum (opponent to move) over all
    children, none skipped. *)

Definition max_of (l : list num) : num := foldr num_max NegInf l.
Definition min_of (l : list num) : num := foldr num_min PosInf l.

Fixpoint minimax_plain_fuel (fuel : nat) (board : Board) (depth : Z)
    (isMaximizing : bool) : num :=
  match fuel with
  | 0%nat => Fin 0
  | S fuel' =>
      match checkWinnerForMiniMax board with
      | Some X => Fin (10 - depth)
      | Some O => Fin (depth - 10)
      | None =>
          if isBoardFull board then Fin 0
          else if isMaximizing
          then max_of (map (fun i => minimax_plain_fuel fuel'
                                       (<[i := Some X]> board) (depth + 1) false)
                         (emptyCells board))
          else min_of (map (fun i => minimax_plain_fuel fuel'
                                       (<[i := Some O]> board) (depth + 1) true)
                         (emptyCells board))
      end
  end.

(** A position with [n] empty cells is at most [n] plies from the end of the
    game, so this fuel is never exhausted: [minimax_plain_eq] below is the
    recursion equation without fuel. *)
Definition minimax_plain (board : Board) (depth : Z) (isMaximizing : bool)
  : num :=
  minimax_plain_fuel (S (count_empty board)) board depth isMaximizing.

Definition getBestMove_plain (board : Board) : Z :=
  pick_best (fun i => minimax_plain (<[i := Some X]> board) 0 false)
    (emptyCells board) NegInf (-1).

(** ** Lines and threats *)

#[global] Instance Player_eq_dec : EqDecision Player.
Proof. solve_decision. Defined.

Definition swapPlayer (p : Player) : Player :=
  match p with X => O | O => X end.

(** The cells of a pattern are three different cells. *)
Definition distinct3 (pat : nat * nat * nat) : Prop :=
  let '(a, b, c) := pat in a <> b /\ a <> c /\ b <> c.


(** The value read from the array is the mark of [p]. *)
Definition cell_is (p : Player) (v : option CellValue) : bool :=
  match v with
  | Some (Some q) => Player_eqb p q
  | _ => false
  end.

(** The three cells of a pattern all carry the mark of [p]. *)
Definition line_of (p : Player) (board : Board) (pat : nat * nat * nat) : bool :=
  let '(a, b, c) := pat in
  cell_is p (board !! a) && cell_is p (board !! b) && cell_is p (board !! c).

Definition has_line (p : Player) (board : Board) : bool :=
  existsb (line_of p board) winPatterns.

(** Cell [i] is one cell of the pattern and the other two carry the mark of
    [p]. *)
Definition two_of (p : Player) (board : Board) (i : nat)
    (pat : nat * nat * nat) : bool :=
  let '(a, b, c) := pat in
  (i =? a)%nat && cell_is p (board !! b) && cell_is p (board !! c)
  || (i =? b)%nat && cell_is p (board !! a) && cell_is p (board !! c)
  || (i =? c)%nat && cell_is p (board !! a) && cell_is p (board !! b).

(** [p] has two in a row within a winning triple whose third cell [i] is
    empty: a mark of [p] at [i] completes three in a row. *)
Definition threat (p : Player) (board : Board) (i : nat) : bool :=
  is_null (board !! i) && existsb (two_of p board i) winPatterns.

(** ** Outcomes, self-play and reachable boards *)

Inductive Outcome := AIWin | OpponentWin | Draw | Undecided.

(** The verdict the component derives from [(winner, isDraw)]. *)
Definition evaluate (board : Board) : Outcome :=
  match checkOutcome board with
  | (Some X, _) => AIWin
  | (Some O, _) => OpponentWin
  | (None, true) => Draw
  | (None, false) => Undecided
  end.

Definition swapBoard (board : Board) : Board :=
  map (fun cell : CellValue => swapPlayer <$> cell) board.

(** The move the engine picks for side [p].  [getBestMove] plays the mark
    [X]; the engine plays [O] by reading the board with the marks
    exchanged. *)
Definition engineMove (fuel : nat) (p : Player) (board : Board) : option nat :=
  match getBestMove fuel (match p with X => board | O => swapBoard board end)
  with
  | Some (_, k) => if k <? 0 then None else Some (Z.to_nat k)
  | None => None
  end.

(** Engine against engine for at most [plies] moves, [p] to move. *)
Fixpoint selfPlay (plies : nat) (fuel : nat) (p : Player) (board : Board)
  : Outcome * Board :=
  match evaluate board with
  | Undecided =>
      match plies with
      | 0%nat => (Undecided, board)
      | S plies' =>
          match engineMove fuel p board with
          | Some i =>
              selfPlay plies' fuel (swapPlayer p) (<[i := Some p]> board)
          | None => (Undecided, board)
          end
      end
  | verdict => (verdict, board)
  end.

(** Playing the cells [moves] in turn, [p] first.  A move is legal on an
    undecided board at an empty cell, as the guards of [handleCellClick] and
    [makeAIMove] require. *)
Fixpoint playFrom (moves : list nat) (p : Player) (board : Board)
  : option Board :=
  match moves with
  | [] => Some board
  | i :: rest =>
      match evaluate board with
      | Undecided =>
          if is_null (board !! i)
          then playFrom rest (swapPlayer p) (<[i := Some p]> board)
          else None
      | _ => None
      end
  end.

(** ** Ranges of scores *)

Definition in_range (lo hi : Z) (n : num) : Prop :=
  match n with
  | Fin v => lo <= v <= hi
  | _ => False
  end.

(** A score is a win of X at some depth between [depth] and
    [depth + count_empty board], a win of O at such a depth, or a draw. *)
Definition score_lo (depth : Z) (empties : nat) : Z :=
  Z.min (Z.min (depth - 10) (10 - depth - Z.of_nat empties)) 0.

Definition score_hi (depth : Z) (empties : nat) : Z :=
  Z.max (Z.max (10 - depth) (depth + Z.of_nat empties - 10)) 0.

(** ** Order on [num] *)

Definition num_le (a b : num) : Prop :=
  match a, b with
  | NegInf, _ => True
  | _, PosInf => True
  | Fin x, Fin y => x <= y
  | _, _ => False
  end.

Definition num_lt (a b : num) : Prop :=
  match a, b with
  | _, NegInf => False
  | PosInf, _ => False
  | Fin x, Fin y => x < y
  | _, _ => True
  end.

Definition num_eq (a b : num) : Prop :=
  match a, b with
  | NegInf, NegInf | PosInf, PosInf => True
  | Fin x, Fin y => x = y
  | _, _ => False
  end.

(** What a search with window [(alpha, beta)] that returns [v] says about the
    plain value [p]. *)
Definition ab_sound (alpha beta p v : num) : Prop :=
  (num_lt alpha p -> num_lt p beta -> v = p)
  /\ (num_le p alpha -> num_le v alpha)
  /\ (num_le beta p -> num_le beta v).

(** ** The state of the component and its handlers

    [GameState] is the interface of [src/types/GameState.tsx]; [winner] only
    ever holds a player or [null].  A handler reads the state of the render
    that created it ([gameState]) and either leaves the state alone or calls
    [setGameState]: it returns [None] or the updater it passes, a function of
    the state being replaced ([prev]). *)

Record Scores := { scoreX : Z; scoreO : Z }.

(** [scores[p]] *)
Definition score_of (s : Scores) (p : Player) : Z :=
  match p with X => scoreX s | O => scoreO s end.

(** [{...scores, [w]: scores[w] + 1}] *)
Definition bump (s : Scores) (w : Player) : Scores :=
  match w with
  | X => {| scoreX := score_of s X + 1; scoreO := scoreO s |}
  | O => {| scoreX := scoreX s; scoreO := score_of s O + 1 |}
  end.

Record GameState := {
  board : Board;
  currentPlayer : Player;
  winner : option Player;
  isDraw : bool;
  scores : Scores;
  isAgainstAI : bool
}.

(** The argument of [useState]. *)
Definition initialState : GameState :=
  {| board := replicate 9 None;
     currentPlayer := X;
     winner := None;
     isDraw := false;
     scores := {| scoreX := 0; scoreO := 0 |};
     isAgainstAI := true |}.

(** The first effect, which React runs after a render with a new [board]
    array. *)
Definition winnerEffect (gameState : GameState)
  : option (GameState -> GameState) :=
  let winner' := checkWinnerForMiniMax (board gameState) in
  let isDraw' := negb (truthy (Some winner')) && isBoardFull (board gameState) in
  if truthy (Some winner') || isDraw' then
    Some (fun prev =>
            {| board := board prev;
               currentPlayer := currentPlayer prev;
               winner := winner';
               isDraw := isDraw';
               scores := match winner' with
                         | Some w => bump (scores prev) w
                         | None => scores prev
                         end;
               isAgainstAI := isAgainstAI prev |})
  else None.

(** [getBestMove] receives a copy of the board; the array it hands back is
    that copy and is dropped.  [fuel] is the fuel of the search. *)
Definition makeAIMove (fuel : nat) (gameState : GameState)
  : option (GameState -> GameState) :=
  if Player_eqb (currentPlayer gameState) X
     && negb (truthy (Some (winner gameState)))
     && negb (isDraw gameState)
  then
    match getBestMove fuel (board gameState) with
    | Some (_, bestMove) =>
        if negb (bestMove =? -1) then
          let newBoard := <[Z.to_nat bestMove := Some X]> (board gameState) in
          Some (fun prev =>
                  {| board := newBoard;
                     currentPlayer := O;
                     winner := winner prev;
                     isDraw := isDraw prev;
                     scores := scores prev;
                     isAgainstAI := isAgainstAI prev |})
        else None
    | None => None
    end
  else None.

(** The guard of [handleCellClick]. *)
Definition clickRejected (gameState : GameState) (index : nat) : bool :=
  truthy (board gameState !! index)
  || truthy (Some (winner gameState))
  || isDraw gameState
  || Player_eqb (currentPlayer gameState) X.

(** [index] is the index of a button, a cell of the board: the write
    [newBoard[index] = "O"] is modelled for such an index only. *)
Definition handleCellClick (gameState : GameState) (index : nat)
  : option (GameState -> GameState) :=
  if clickRejected gameState index then None
  else
    let newBoard := <[index := Some O]> (board gameState) in
    Some (fun prev =>
            {| board := newBoard;
               currentPlayer := X;
               winner := winner prev;
               isDraw := isDraw prev;
               scores := scores prev;
               isAgainstAI := isAgainstAI prev |}).

Definition resetGame (gameState : GameState) : GameState :=
  {| board := replicate 9 None;
     currentPlayer := X;
     winner := None;
     isDraw := false;
     scores := scores gameState;
     isAgainstAI := true |}.

Definition resetScores (prev : GameState) : GameState :=
  {| board := board prev;
     currentPlayer := currentPlayer prev;
     winner := winner prev;
     isDraw := isDraw prev;
     scores := {| scoreX := 0; scoreO := 0 |};
     isAgainstAI := isAgainstAI prev |}.

(** The [disabled] attribute of the button of a cell holding [tile]. *)
Definition cellDisabled (gameState : GameState) (tile : CellValue) : bool :=
  truthy (Some tile)
  || truthy (Some (winner gameState))
  || isDraw gameState
  || Player_eqb (currentPlayer gameState) X.

(** [setGameState] with what a handler returned. *)
Definition dispatch (update : option (GameState -> GameState))
    (gameState : GameState) : GameState :=
  match update with
  | Some f => f gameState
  | None => gameState
  end.

(** ** Sessions

    What the user can do, and the state the component settles in after each
    action.  Every handler runs on the current state.  After a render with a
    new board the winner effect runs; the timer of the second effect then
    calls [makeAIMove], and the effect runs again on the board the AI
    produced.  The user acts between such rounds, not during the delay of
    the timer. *)

Inductive Event := Click (index : nat) | NewGame | ClearScores.

Definition afterBoardChange (fuel : nat) (gameState : GameState) : GameState :=
  let checked := dispatch (winnerEffect gameState) gameState in
  match makeAIMove fuel checked with
  | None => checked
  | Some update =>
      let moved := update checked in
      dispatch (winnerEffect moved) moved
  end.

Definition step (fuel : nat) (gameState : GameState) (ev : Event) : GameState :=
  match ev with
  | Click index =>
      match handleCellClick gameState index with
      | None => gameState
      | Some update => afterBoardChange fuel (update gameState)
      end
  | NewGame => afterBoardChange fuel (resetGame gameState)
  | ClearScores => resetScores gameState
  end.

(** The state after mounting the component and the given events. *)
Definition session (fuel : nat) (events : list Event) : GameState :=
  fold_left (step fuel) events (afterBoardChange fuel initialState).

(** A click comes from the button of one of the nine cells. *)
Definition validEvent (ev : Event) : Prop :=
  match ev with
  | Click index => (index < 9)%nat
  | _ => True
  end.

Fixpoint count_mark (p : Player) (cells : Board) : nat :=
  match cells with
  | [] => 0
  | Some q :: rest =>
      if Player_eqb p q then S (count_mark p rest) else count_mark p rest
  | None :: rest => count_mark p rest
  end.

(** The score is not a loss for X. *)
Definition nonneg (n : num) : Prop := num_le (Fin 0) n.

(** With the search started at [board], depth 0 and the full window, X does
    not lose: the score [minimax] returns is not negative. *)
Definition notLost (fuel : nat) (cells : Board) (isMaximizing : bool) : Prop :=
  match minimax fuel cells 0 isMaximizing NegInf PosInf with
  | Some (_, Fin v) => 0 <= v
  | _ => False
  end.

(** A state in which X is to move on an undecided board it does not lose,
    with as many marks of X as of O and no result recorded. *)
Definition aiToMove (gameState : GameState) : Prop :=
  length (board gameState) = 9%nat
  /\ currentPlayer gameState = X
  /\ winner gameState = None
  /\ isDraw gameState = false
  /\ evaluate (board gameState) = Undecided
  /\ count_mark X (board gameState) = count_mark O (board gameState)
  /\ nonneg (minimax_plain (board gameState) 0 true)
  /\ scoreO (scores gameState) = 0.

(** A state the component rests in after the AI has answered. *)
Definition settled (gameState : GameState) : Prop :=
  length (board gameState) = 9%nat
  /\ currentPlayer gameState = O
  /\ count_mark X (board gameState) = S (count_mark O (board gameState))
  /\ has_line O (board gameState) = false
  /\ (winner gameState, isDraw gameState) = checkOutcome (board gameState)
  /\ (evaluate (board gameState) = Undecided ->
      nonneg (minimax_plain (board gameState) 0 false))
  /\ scoreO (scores gameState) = 0.

(** * Proofs *)

Lemma num_eq_iff a b : a = b <-> num_eq a b.
Proof.
  destruct a, b; simpl; split; try done; try congruence.
Qed.

(** Case analysis on every [num] in sight, then linear arithmetic. *)
Ltac num_cases :=
  unfold num_le, num_lt in *;
  rewrite ?num_eq_iff in *;
  repeat match goal with
         | x : num |- _ => destruct x
         end;
  simpl in *;
  try lia.

Lemma num_leb_le a b : num_leb a b = true <-> num_le a b.
Proof. destruct a, b; simpl; rewrite ?Z.leb_le; intuition congruence. Qed.

Lemma num_leb_gt a b : num_leb a b = false <-> num_lt b a.
Proof. destruct a, b; simpl; rewrite ?Z.leb_gt; intuition congruence. Qed.

Lemma num_gtb_lt a b : num_gtb a b = true <-> num_lt b a.
Proof. destruct a, b; simpl; rewrite ?Z.ltb_lt; intuition congruence. Qed.

Lemma num_gtb_le a b : num_gtb a b = false <-> num_le a b.
Proof. destruct a, b; simpl; rewrite ?Z.ltb_ge; intuition congruence. Qed.

(** ** Facts about the cells of a board *)

Lemma emptyCells_from_ge i (board : Board) :
  (length board <= i)%nat -> emptyCells_from i board = [].
Proof.
  intros H. unfold emptyCells_from.
  replace (length board - i)%nat with 0%nat by lia. reflexivity.
Qed.

Lemma emptyCells_from_lt i (board : Board) :
  (i < length board)%nat ->
  emptyCells_from i board =
    if is_null (board !! i) then i :: emptyCells_from (S i) board
    else emptyCells_from (S i) board.
Proof.
  intros H. unfold emptyCells_from.
  replace (length board - i)%nat with (S (length board - S i)) by lia.
  reflexivity.
Qed.

Lemma is_null_Some (v : option CellValue) : is_null v = true <-> v = Some None.
Proof. destruct v as [[p|]|]; simpl; intuition congruence. Qed.

Lemma elem_of_emptyCells_from i j (board : Board) :
  j ∈ emptyCells_from i board <-> (i <= j)%nat /\ board !! j = Some None.
Proof.
  unfold emptyCells_from. rewrite list_elem_of_In, filter_In, in_seq, is_null_Some.
  split.
  - intros [[H1 H2] H3]. auto.
  - intros [H1 H2]. apply lookup_lt_Some in H2 as H3. split; [lia | done].
Qed.

Lemma elem_of_emptyCells j (board : Board) :
  j ∈ emptyCells board <-> board !! j = Some None.
Proof.
  unfold emptyCells. rewrite elem_of_emptyCells_from. intuition lia.
Qed.

Lemma count_empty_insert (board : Board) j p :
  board !! j = Some None ->
  S (count_empty (<[j := Some p]> board)) = count_empty board.
Proof.
  revert j. induction board as [|c rest IH]; intros [|j] H; simpl in *;
    try discriminate.
  - injection H as ->. reflexivity.
  - destruct c; simpl; rewrite (IH j H); reflexivity.
Qed.

Lemma insert_restore (board : Board) j p :
  board !! j = Some None -> <[j := None]> (<[j := Some p]> board) = board.
Proof.
  intros H. rewrite list_insert_insert_eq. by apply list_insert_id.
Qed.

Lemma isBoardFull_false (board : Board) :
  isBoardFull board = false -> exists j, board !! j = Some None.
Proof.
  induction board as [|c rest IH]; simpl; [discriminate|].
  destruct c as [p|]; simpl.
  - intros H. destruct (IH H) as [j Hj]. by exists (S j).
  - intros _. by exists 0%nat.
Qed.

Lemma isBoardFull_true (board : Board) :
  isBoardFull board = true <-> forall j, board !! j <> Some None.
Proof.
  induction board as [|c rest IH]; simpl.
  - split; [intros _ j; by rewrite lookup_nil | done].
  - destruct c as [p|]; simpl.
    + rewrite IH. split.
      * intros H [|j]; simpl; [done | apply H].
      * intros H j. apply (H (S j)).
    + split; [discriminate|]. intros H. by destruct (H 0%nat).
Qed.

Lemma emptyCells_nil (board : Board) :
  emptyCells board = [] <-> isBoardFull board = true.
Proof.
  rewrite isBoardFull_true. split.
  - intros H j Hj. apply elem_of_emptyCells in Hj. rewrite H in Hj.
    by apply elem_of_nil in Hj.
  - intros H. destruct (emptyCells board) as [|j l] eqn:E; [done|].
    assert (Hj : j ∈ emptyCells board) by (rewrite E; left).
    apply elem_of_emptyCells in Hj. by destruct (H j).
Qed.

(** ** The loops hand the array back

    If the recursive call returns the array it was given, with the score
    [child j] for the child at cell [j], each loop returns the array it was
    given and the result of the corresponding loop over [emptyCells]. *)

Section LoopsPure.
Variable rec : Board -> Z -> bool -> num -> num -> option (Board * num).
Variable board : Board.
Variable depth : Z.
Variable child : nat -> num -> num -> num.

Lemma max_loop_pure :
  (forall j a b, board !! j = Some None ->
     rec (<[j := Some X]> board) (depth + 1) false a b
     = Some (<[j := Some X]> board, child j a b)) ->
  forall steps i alpha beta best,
    (length board <= i + steps)%nat ->
    max_loop rec steps i board depth alpha beta best
    = Some (board, ab_max child (emptyCells_from i board) alpha beta best).
Proof.
  intros Hrec steps.
  induction steps as [|steps IH]; intros i alpha beta best Hlen.
  - simpl. destruct (Nat.ltb_spec i (length board)); [lia|].
    simpl. by rewrite emptyCells_from_ge by lia.
  - simpl. destruct (Nat.ltb_spec i (length board)) as [Hi|Hi]; simpl.
    + rewrite (emptyCells_from_lt i board Hi).
      destruct (is_null (board !! i)) eqn:En.
      * apply is_null_Some in En. rewrite (Hrec i alpha beta En).
        rewrite (insert_restore board i X En). simpl.
        destruct (num_leb beta (num_max alpha (child i alpha beta)));
          [done|]. apply IH. lia.
      * apply IH. lia.
    + by rewrite emptyCells_from_ge by lia.
Qed.

Lemma min_loop_pure :
  (forall j a b, board !! j = Some None ->
     rec (<[j := Some O]> board) (depth + 1) true a b
     = Some (<[j := Some O]> board, child j a b)) ->
  forall steps i alpha beta best,
    (length board <= i + steps)%nat ->
    min_loop rec steps i board depth alpha beta best
    = Some (board, ab_min child (emptyCells_from i board) alpha beta best).
Proof.
  intros Hrec steps.
  induction steps as [|steps IH]; intros i alpha beta best Hlen.
  - simpl. destruct (Nat.ltb_spec i (length board)); [lia|].
    simpl. by rewrite emptyCells_from_ge by lia.
  - simpl. destruct (Nat.ltb_spec i (length board)) as [Hi|Hi]; simpl.
    + rewrite (emptyCells_from_lt i board Hi).
      destruct (is_null (board !! i)) eqn:En.
      * apply is_null_Some in En. rewrite (Hrec i alpha beta En).
        rewrite (insert_restore board i O En). simpl.
        destruct (num_leb (num_min beta (child i alpha beta)) alpha);
          [done|]. apply IH. lia.
      * apply IH. lia.
    + by rewrite emptyCells_from_ge by lia.
Qed.

Lemma best_loop_pure (score : nat -> num) :
  (forall j, board !! j = Some None ->
     rec (<[j := Some X]> board) 0 false NegInf PosInf
     = Some (<[j := Some X]> board, score j)) ->
  forall steps i best move,
    (length board <= i + steps)%nat ->
    best_loop rec steps i board best move
    = Some (board, pick_best score (emptyCells_from i board) best move).
Proof.
  intros Hrec steps.
  induction steps as [|steps IH]; intros i best move Hlen.
  - simpl. destruct (Nat.ltb_spec i (length board)); [lia|].
    simpl. by rewrite emptyCells_from_ge by lia.
  - simpl. destruct (Nat.ltb_spec i (length board)) as [Hi|Hi]; simpl.
    + rewrite (emptyCells_from_lt i board Hi).
      destruct (is_null (board !! i)) eqn:En.
      * apply is_null_Some in En. rewrite (Hrec i En).
        rewrite (insert_restore board i X En). simpl.
        destruct (num_gtb (score i) best); apply IH; lia.
      * apply IH. lia.
    + by rewrite emptyCells_from_ge by lia.
Qed.
End LoopsPure.

Lemma ab_max_ext (f g : nat -> num -> num -> num) cells :
  (forall i, i ∈ cells -> forall a b, f i a b = g i a b) ->
  forall alpha beta best,
    ab_max f cells alpha beta best = ab_max g cells alpha beta best.
Proof.
  induction cells as [|i rest IH]; intros H alpha beta best; simpl; [done|].
  rewrite (H i) by left.
  destruct (num_leb _ _); [done|]. apply IH. intros j Hj. apply H. by right.
Qed.

Lemma ab_min_ext (f g : nat -> num -> num -> num) cells :
  (forall i, i ∈ cells -> forall a b, f i a b = g i a b) ->
  forall alpha beta best,
    ab_min f cells alpha beta best = ab_min g cells alpha beta best.
Proof.
  induction cells as [|i rest IH]; intros H alpha beta best; simpl; [done|].
  rewrite (H i) by left.
  destruct (num_leb _ _); [done|]. apply IH. intros j Hj. apply H. by right.
Qed.

(** [minimax] computes [alphabeta] and returns the array unchanged. *)
Lemma minimax_alphabeta fuel :
  forall (board : Board) depth isMaximizing alpha beta,
    (count_empty board < fuel)%nat ->
    minimax fuel board depth isMaximizing alpha beta
    = Some (board, alphabeta fuel board depth isMaximizing alpha beta).
Proof.
  induction fuel as [|fuel IH]; intros board depth isMax alpha beta Hf; [lia|].
  simpl. destruct (checkWinnerForMiniMax board) as [[|]|]; [done|done|].
  destruct (isBoardFull board); [done|].
  destruct isMax.
  - apply max_loop_pure; [|lia]. intros j a b Hj. apply IH.
    pose proof (count_empty_insert board j X Hj). lia.
  - apply min_loop_pure; [|lia]. intros j a b Hj. apply IH.
    pose proof (count_empty_insert board j O Hj). lia.
Qed.

(** The array is handed back whatever the fuel, pruned or not. *)
Section LoopsFrame.
Variable rec : Board -> Z -> bool -> num -> num -> option (Board * num).
Hypothesis rec_frame :
  forall (b : Board) d m a be b' s, rec b d m a be = Some (b', s) -> b' = b.

Lemma max_loop_frame steps :
  forall i (board : Board) depth alpha beta best b' s,
    max_loop rec steps i board depth alpha beta best = Some (b', s) ->
    b' = board.
Proof.
  induction steps as [|steps IH]; intros i board depth alpha beta best b' s;
    simpl; destruct (negb (i <? length board)%nat); try congruence.
  destruct (is_null (board !! i)) eqn:En; [|apply IH].
  apply is_null_Some in En.
  destruct (rec _ _ _ _ _) as [[board2 score]|] eqn:Er; [|done].
  apply rec_frame in Er as ->. rewrite (insert_restore board i X En).
  destruct (num_leb _ _); [congruence | apply IH].
Qed.

Lemma min_loop_frame steps :
  forall i (board : Board) depth alpha beta best b' s,
    min_loop rec steps i board depth alpha beta best = Some (b', s) ->
    b' = board.
Proof.
  induction steps as [|steps IH]; intros i board depth alpha beta best b' s;
    simpl; destruct (negb (i <? length board)%nat); try congruence.
  destruct (is_null (board !! i)) eqn:En; [|apply IH].
  apply is_null_Some in En.
  destruct (rec _ _ _ _ _) as [[board2 score]|] eqn:Er; [|done].
  apply rec_frame in Er as ->. rewrite (insert_restore board i O En).
  destruct (num_leb _ _); [congruence | apply IH].
Qed.

Lemma best_loop_frame steps :
  forall i (board : Board) best move b' k,
    best_loop rec steps i board best move = Some (b', k) -> b' = board.
Proof.
  induction steps as [|steps IH]; intros i board best move b' k;
    simpl; destruct (negb (i <? length board)%nat); try congruence.
  destruct (is_null (board !! i)) eqn:En; [|apply IH].
  apply is_null_Some in En.
  destruct (rec _ _ _ _ _) as [[board2 score]|] eqn:Er; [|done].
  apply rec_frame in Er as ->. rewrite (insert_restore board i X En).
  destruct (num_gtb _ _); apply IH.
Qed.
End LoopsFrame.

Lemma minimax_frame fuel :
  forall (board : Board) depth isMaximizing alpha beta b' s,
    minimax fuel board depth isMaximizing alpha beta = Some (b', s) ->
    b' = board.
Proof.
  induction fuel as [|fuel IH]; intros board depth isMax alpha beta b' s;
    simpl; [done|].
  destruct (checkWinnerForMiniMax board) as [[|]|]; try congruence.
  destruct (isBoardFull board); [congruence|].
  destruct isMax; [apply max_loop_frame | apply min_loop_frame]; exact IH.
Qed.

(** ** Soundness of the pruning *)

Lemma num_max_assoc a b c : num_max a (num_max b c) = num_max (num_max a b) c.
Proof. destruct a, b, c; simpl; try reflexivity. f_equal. lia. Qed.

Lemma num_min_assoc a b c : num_min a (num_min b c) = num_min (num_min a b) c.
Proof. destruct a, b, c; simpl; try reflexivity. f_equal. lia. Qed.

Section Pruning.
Variable child : nat -> num -> num -> num.
Variable pchild : nat -> num.

Lemma ab_max_sound cells :
  (forall i, i ∈ cells -> forall a b,
      num_lt a b -> ab_sound a b (pchild i) (child i a b)) ->
  forall alpha beta best a P,
    a = num_max alpha best ->
    num_lt a beta ->
    (num_le P alpha -> num_le best alpha) ->
    (num_lt alpha P -> best = P) ->
    ab_sound alpha beta (num_max P (max_of (map pchild cells)))
      (ab_max child cells a beta best).
Proof.
  induction cells as [|i rest IH]; intros Hc alpha beta best a P Ha Hlt H1 H2.
  - simpl. unfold ab_sound. clear Hc. subst a. num_cases.
  - simpl.
    pose proof (Hc i ltac:(left) a beta Hlt) as Hs.
    assert (Hrest : forall j, j ∈ rest -> forall a b,
               num_lt a b -> ab_sound a b (pchild j) (child j a b))
      by (intros j Hj; apply Hc; by right).
    specialize (IH Hrest). clear Hc Hrest.
    generalize dependent (child i a beta). intros v.
    generalize dependent (pchild i). intros p.
    destruct (num_leb beta (num_max a v)) eqn:E.
    + apply num_leb_le in E. clear IH.
      generalize (max_of (map pchild rest)). intros M Hs.
      unfold ab_sound in *. subst a. num_cases.
    + apply num_leb_gt in E. intros Hs. rewrite num_max_assoc.
      unfold ab_sound in Hs.
      apply IH; clear IH; subst a; num_cases.
Qed.

Lemma ab_min_sound cells :
  (forall i, i ∈ cells -> forall a b,
      num_lt a b -> ab_sound a b (pchild i) (child i a b)) ->
  forall alpha beta best b P,
    b = num_min beta best ->
    num_lt alpha b ->
    (num_le beta P -> num_le beta best) ->
    (num_lt P beta -> best = P) ->
    ab_sound alpha beta (num_min P (min_of (map pchild cells)))
      (ab_min child cells alpha b best).
Proof.
  induction cells as [|i rest IH]; intros Hc alpha beta best b P Hb Hlt H1 H2.
  - simpl. unfold ab_sound. clear Hc. subst b. num_cases.
  - simpl.
    pose proof (Hc i ltac:(left) alpha b Hlt) as Hs.
    assert (Hrest : forall j, j ∈ rest -> forall a b,
               num_lt a b -> ab_sound a b (pchild j) (child j a b))
      by (intros j Hj; apply Hc; by right).
    specialize (IH Hrest). clear Hc Hrest.
    generalize dependent (child i alpha b). intros v.
    generalize dependent (pchild i). intros p.
    destruct (num_leb (num_min b v) alpha) eqn:E.
    + apply num_leb_le in E. clear IH.
      generalize (min_of (map pchild rest)). intros M Hs.
      unfold ab_sound in *. subst b. num_cases.
    + apply num_leb_gt in E. intros Hs. rewrite num_min_assoc.
      unfold ab_sound in Hs.
      apply IH; clear IH; subst b; num_cases.
Qed.
End Pruning.

Lemma plain_fuel_irrel fuel : forall fuel' (board : Board) depth isMax,
  (count_empty board < fuel)%nat -> (count_empty board < fuel')%nat ->
  minimax_plain_fuel fuel board depth isMax
  = minimax_plain_fuel fuel' board depth isMax.
Proof.
  induction fuel as [|fuel IH]; intros [|fuel'] board depth isMax H1 H2;
    try lia.
  simpl. destruct (checkWinnerForMiniMax board) as [[|]|]; [done|done|].
  destruct (isBoardFull board); [done|].
  destruct isMax; f_equal; apply map_ext_in; intros j Hj;
    apply list_elem_of_In, elem_of_emptyCells in Hj.
  - pose proof (count_empty_insert board j X Hj). apply IH; lia.
  - pose proof (count_empty_insert board j O Hj). apply IH; lia.
Qed.

Lemma minimax_plain_unfold fuel (board : Board) depth isMax :
  (count_empty board < fuel)%nat ->
  minimax_plain_fuel fuel board depth isMax = minimax_plain board depth isMax.
Proof. intros H. apply plain_fuel_irrel; [done | lia]. Qed.

Lemma num_max_NegInf_l a : num_max NegInf a = a.
Proof. by destruct a. Qed.

Lemma num_min_PosInf_l a : num_min PosInf a = a.
Proof. by destruct a. Qed.

(** The pruned search and the plain one, for any window. *)
Lemma alphabeta_sound fuel :
  forall (board : Board) depth isMax alpha beta,
    (count_empty board < fuel)%nat ->
    num_lt alpha beta ->
    ab_sound alpha beta (minimax_plain_fuel fuel board depth isMax)
      (alphabeta fuel board depth isMax alpha beta).
Proof.
  induction fuel as [|fuel IH]; intros board depth isMax alpha beta Hf Hlt;
    [lia|].
  simpl. destruct (checkWinnerForMiniMax board) as [[|]|];
    [unfold ab_sound; num_cases .. |].
  destruct (isBoardFull board); [unfold ab_sound; num_cases|].
  destruct isMax.
  - rewrite <- (num_max_NegInf_l (max_of _)).
    apply ab_max_sound; [| clear IH; num_cases ..].
    intros j Hj a b Hab. apply elem_of_emptyCells in Hj.
    pose proof (count_empty_insert board j X Hj). apply IH; [lia | done].
  - rewrite <- (num_min_PosInf_l (min_of _)).
    apply ab_min_sound; [| clear IH; num_cases ..].
    intros j Hj a b Hab. apply elem_of_emptyCells in Hj.
    pose proof (count_empty_insert board j O Hj). apply IH; [lia | done].
Qed.

(** With the full window the pruned search returns the plain value. *)
Lemma alphabeta_full_window fuel (board : Board) depth isMax :
  (count_empty board < fuel)%nat ->
  minimax_plain board depth isMax <> NegInf ->
  minimax_plain board depth isMax <> PosInf ->
  alphabeta fuel board depth isMax NegInf PosInf
  = minimax_plain board depth isMax.
Proof.
  intros Hf Hn Hp.
  destruct (alphabeta_sound fuel board depth isMax NegInf PosInf Hf I)
    as (H & _ & _).
  rewrite (minimax_plain_unfold fuel board depth isMax Hf) in H.
  apply H; destruct (minimax_plain board depth isMax); done.
Qed.

(** ** Scores are finite and bounded *)

Lemma max_of_range lo hi (l : list num) :
  l <> [] -> Forall (in_range lo hi) l -> in_range lo hi (max_of l).
Proof.
  induction l as [|x l IH]; [done|]. intros _ H.
  apply Forall_cons in H as [Hx Hl].
  change (max_of (x :: l)) with (num_max x (max_of l)).
  destruct l as [|y l].
  - simpl. destruct x; simpl in *; done.
  - specialize (IH ltac:(done) Hl).
    destruct x, (max_of (y :: l)); simpl in *; try done. lia.
Qed.

Lemma min_of_range lo hi (l : list num) :
  l <> [] -> Forall (in_range lo hi) l -> in_range lo hi (min_of l).
Proof.
  induction l as [|x l IH]; [done|]. intros _ H.
  apply Forall_cons in H as [Hx Hl].
  change (min_of (x :: l)) with (num_min x (min_of l)).
  destruct l as [|y l].
  - simpl. destruct x; simpl in *; done.
  - specialize (IH ltac:(done) Hl).
    destruct x, (min_of (y :: l)); simpl in *; try done. lia.
Qed.

Lemma in_range_mono lo hi lo' hi' n :
  lo' <= lo -> hi <= hi' -> in_range lo hi n -> in_range lo' hi' n.
Proof. destruct n; simpl; lia. Qed.

Lemma plain_fuel_range fuel :
  forall (board : Board) depth isMax,
    (count_empty board < fuel)%nat ->
    in_range (score_lo depth (count_empty board))
      (score_hi depth (count_empty board))
      (minimax_plain_fuel fuel board depth isMax).
Proof.
  induction fuel as [|fuel IH]; intros board depth isMax Hf; [lia|].
  simpl. unfold score_lo, score_hi.
  destruct (checkWinnerForMiniMax board) as [[|]|]; [simpl; lia ..|].
  destruct (isBoardFull board) eqn:Efull; [simpl; lia|].
  assert (Hne : emptyCells board <> []).
  { intros E. apply emptyCells_nil in E. congruence. }
  destruct isMax.
  - apply max_of_range; [by destruct (emptyCells board)|].
    apply Forall_forall. intros n Hn. apply list_elem_of_fmap in Hn as (j & -> & Hj).
    apply elem_of_emptyCells in Hj.
    pose proof (count_empty_insert board j X Hj) as Hc.
    eapply in_range_mono; [| | apply IH; lia];
      unfold score_lo, score_hi; lia.
  - apply min_of_range; [by destruct (emptyCells board)|].
    apply Forall_forall. intros n Hn. apply list_elem_of_fmap in Hn as (j & -> & Hj).
    apply elem_of_emptyCells in Hj.
    pose proof (count_empty_insert board j O Hj) as Hc.
    eapply in_range_mono; [| | apply IH; lia];
      unfold score_lo, score_hi; lia.
Qed.

Lemma plain_range (board : Board) depth isMax :
  in_range (score_lo depth (count_empty board))
    (score_hi depth (count_empty board)) (minimax_plain board depth isMax).
Proof. apply plain_fuel_range. lia. Qed.

Lemma plain_finite (board : Board) depth isMax :
  exists v, minimax_plain board depth isMax = Fin v.
Proof.
  pose proof (plain_range board depth isMax) as H.
  destruct (minimax_plain board depth isMax); simpl in H; [done | eauto | done].
Qed.

(** ** The pruned search returns the plain score *)

Lemma minimax_is_plain fuel (board : Board) depth isMax :
  (count_empty board < fuel)%nat ->
  minimax fuel board depth isMax NegInf PosInf
  = Some (board, minimax_plain board depth isMax).
Proof.
  intros Hf. rewrite minimax_alphabeta by done.
  rewrite alphabeta_full_window; [done | done | |];
    destruct (plain_finite board depth isMax) as [v ->]; done.
Qed.

Lemma getBestMove_is_plain fuel (board : Board) :
  (count_empty board <= fuel)%nat ->
  getBestMove fuel board = Some (board, getBestMove_plain board).
Proof.
  intros Hf. unfold getBestMove, getBestMove_plain.
  apply best_loop_pure; [|lia]. intros j Hj.
  apply minimax_is_plain.
  pose proof (count_empty_insert board j X Hj). lia.
Qed.

(** ** The choice of the best cell *)

Lemma num_le_refl a : num_le a a.
Proof. num_cases. Qed.

Lemma num_lt_le a b : num_lt a b -> num_le a b.
Proof. num_cases. Qed.

Lemma num_lt_trans a b c : num_lt a b -> num_lt b c -> num_lt a c.
Proof. num_cases. Qed.

Lemma num_le_lt_trans a b c : num_le a b -> num_lt b c -> num_lt a c.
Proof. num_cases. Qed.

Lemma pick_best_unique (score : nat -> num) cells w :
  (forall j, j ∈ cells -> j <> w -> num_lt (score j) (score w)) ->
  forall bs bm,
    (w ∈ cells /\ num_lt bs (score w)) \/ (bm = Z.of_nat w /\ bs = score w) ->
    pick_best score cells bs bm = Z.of_nat w.
Proof.
  induction cells as [|c rest IH]; intros Hlt bs bm Hst; simpl.
  - destruct Hst as [[Hw _]|[-> _]]; [by apply elem_of_nil in Hw | done].
  - assert (Hrest : forall j, j ∈ rest -> j <> w -> num_lt (score j) (score w))
      by (intros j Hj; apply Hlt; by right).
    specialize (IH Hrest).
    destruct (Nat.eq_dec c w) as [->|Hcw].
    + destruct Hst as [[_ Hbs]|[-> ->]].
      * apply num_gtb_lt in Hbs as ->. apply IH. by right.
      * replace (num_gtb (score w) (score w)) with false
          by (symmetry; apply num_gtb_le, num_le_refl).
        apply IH. by right.
    + pose proof (Hlt c ltac:(left) Hcw) as Hc.
      destruct Hst as [[Hw Hbs]|[-> ->]].
      * apply elem_of_cons in Hw as [->|Hw]; [done|].
        destruct (num_gtb (score c) bs); apply IH; left; done.
      * replace (num_gtb (score c) (score w)) with false
          by (symmetry; by apply num_gtb_le, num_lt_le).
        apply IH. by right.
Qed.

Lemma pick_best_split (score : nat -> num) cells :
  forall pre i post,
    Forall (fun j => num_lt (score j) (score i)) pre ->
    Forall (fun j => num_le (score j) (score i)) post ->
    exists pre' i' post',
      pre ++ i :: post ++ cells = pre' ++ i' :: post'
      /\ pick_best score cells (score i) (Z.of_nat i) = Z.of_nat i'
      /\ Forall (fun j => num_lt (score j) (score i')) pre'
      /\ Forall (fun j => num_le (score j) (score i')) post'.
Proof.
  induction cells as [|c rest IH]; intros pre i post Hpre Hpost; simpl.
  - exists pre, i, post. by rewrite app_nil_r.
  - destruct (num_gtb (score c) (score i)) eqn:E.
    + apply num_gtb_lt in E.
      destruct (IH (pre ++ i :: post) c []) as (pre' & i' & post' & H1 & H2).
      * apply Forall_app. split; [|apply Forall_cons; split; [done|]].
        -- eapply Forall_impl; [exact Hpre|]. intros j Hj. simpl in Hj.
           by eapply num_lt_trans.
        -- eapply Forall_impl; [exact Hpost|]. intros j Hj. simpl in Hj.
           by eapply num_le_lt_trans.
      * constructor.
      * exists pre', i', post'. split; [|done].
        rewrite <- H1. simpl. by rewrite <- app_assoc.
    + apply num_gtb_le in E.
      destruct (IH pre i (post ++ [c])) as (pre' & i' & post' & H1 & H2).
      * done.
      * apply Forall_app. split; [done|]. by apply Forall_singleton.
      * exists pre', i', post'. split; [|done].
        rewrite <- H1. by rewrite <- app_assoc.
Qed.

Lemma pick_best_first_max (score : nat -> num) cells :
  cells <> [] ->
  (forall j, j ∈ cells -> score j <> NegInf) ->
  exists pre i post,
    cells = pre ++ i :: post
    /\ pick_best score cells NegInf (-1) = Z.of_nat i
    /\ Forall (fun j => num_lt (score j) (score i)) pre
    /\ Forall (fun j => num_le (score j) (score i)) post.
Proof.
  destruct cells as [|c rest]; [done|]. intros _ Hfin. simpl.
  replace (num_gtb (score c) NegInf) with true.
  - apply (pick_best_split score rest [] c []); constructor.
  - pose proof (Hfin c ltac:(left)). by destruct (score c).
Qed.

(** ** The evaluator and the lines of a board *)

Lemma pattern_hit_line (board : Board) pat :
  pattern_hit board pat = line_of X board pat || line_of O board pat.
Proof.
  destruct pat as [[a b] c]. unfold pattern_hit, line_of.
  destruct (board !! a) as [[[|]|]|], (board !! b) as [[[|]|]|],
    (board !! c) as [[[|]|]|]; reflexivity.
Qed.

Lemma pattern_hit_winner (board : Board) a b c :
  pattern_hit board (a, b, c) = true ->
  exists p, mjoin (board !! a) = Some p /\ line_of p board (a, b, c) = true.
Proof.
  unfold pattern_hit, line_of.
  destruct (board !! a) as [[[|]|]|], (board !! b) as [[[|]|]|],
    (board !! c) as [[[|]|]|]; simpl; try discriminate; eauto.
Qed.

Lemma checkWinner_loop_spec pats (board : Board) :
  match checkWinner_loop pats board with
  | Some p => existsb (line_of p board) pats = true
  | None => forall p, existsb (line_of p board) pats = false
  end.
Proof.
  induction pats as [|[[a b] c] rest IH]; cbn [checkWinner_loop existsb];
    [done|].
  destruct (pattern_hit board (a, b, c)) eqn:E.
  - apply pattern_hit_winner in E as (p & -> & Hp). by rewrite Hp.
  - rewrite pattern_hit_line in E. apply orb_false_elim in E as [EX EO].
    destruct (checkWinner_loop rest board) as [p|].
    + rewrite IH. apply orb_true_r.
    + intros [|]; rewrite IH; [by rewrite EX | by rewrite EO].
Qed.

Lemma checkWinner_Some (board : Board) p :
  checkWinnerForMiniMax board = Some p -> has_line p board = true.
Proof.
  intros H. pose proof (checkWinner_loop_spec winPatterns board) as Hs.
  unfold checkWinnerForMiniMax in H. by rewrite H in Hs.
Qed.

Lemma checkWinner_None (board : Board) :
  checkWinnerForMiniMax board = None <-> forall p, has_line p board = false.
Proof.
  pose proof (checkWinner_loop_spec winPatterns board) as Hs.
  unfold checkWinnerForMiniMax, has_line. split.
  - intros H. by rewrite H in Hs.
  - intros H. destruct (checkWinner_loop winPatterns board) as [p|]; [|done].
    rewrite H in Hs. discriminate.
Qed.

Lemma Player_eqb_eq p q : Player_eqb p q = true <-> p = q.
Proof. destruct p, q; simpl; intuition congruence. Qed.

Lemma cell_is_insert (board : Board) i q p t :
  board !! i = Some None ->
  cell_is p (<[i := Some q]> board !! t)
  = if (t =? i)%nat then Player_eqb p q else cell_is p (board !! t).
Proof.
  intros Hi. destruct (Nat.eqb_spec t i) as [->|Hne].
  - rewrite list_lookup_insert_eq; [done|]. by eapply lookup_lt_Some.
  - by rewrite list_lookup_insert_ne.
Qed.

(** A mark of [q] creates no line of the other player. *)
Lemma has_line_insert_other (board : Board) i p q :
  board !! i = Some None -> p <> q ->
  has_line p (<[i := Some q]> board) = true -> has_line p board = true.
Proof.
  intros Hi Hpq. unfold has_line.
  assert (Epq : Player_eqb p q = false).
  { destruct (Player_eqb p q) eqn:E; [|done]. by apply Player_eqb_eq in E. }
  induction winPatterns as [|[[a b] c] rest IH]; cbn [existsb]; [done|].
  intros H. apply orb_true_iff in H as [H|H].
  - apply orb_true_iff. left. revert H. unfold line_of.
    rewrite !(cell_is_insert board i q p) by done. rewrite Epq.
    destruct (a =? i)%nat, (b =? i)%nat, (c =? i)%nat; simpl;
      rewrite ?andb_false_r; done.
  - rewrite (IH H). apply orb_true_r.
Qed.

Lemma line_of_insert_same (board : Board) i p pat :
  board !! i = Some None -> distinct3 pat ->
  line_of p (<[i := Some p]> board) pat
  = two_of p board i pat || line_of p board pat.
Proof.
  destruct pat as [[a b] c]. intros Hi (Hab & Hac & Hbc).
  unfold line_of, two_of.
  rewrite !(cell_is_insert board i p p) by done.
  assert (Hp : Player_eqb p p = true) by by apply Player_eqb_eq.
  assert (Hn : forall t, t = i -> cell_is p (board !! t) = false)
    by (intros t ->; by rewrite Hi).
  rewrite Hp, !(Nat.eqb_sym i).
  destruct (Nat.eqb_spec a i) as [Ea|Ea], (Nat.eqb_spec b i) as [Eb|Eb],
    (Nat.eqb_spec c i) as [Ec|Ec]; try congruence;
    rewrite ?(Hn a Ea), ?(Hn b Eb), ?(Hn c Ec); simpl;
    destruct (cell_is p (board !! a)), (cell_is p (board !! b)),
      (cell_is p (board !! c)); done.
Qed.

Lemma winPatterns_distinct : Forall distinct3 winPatterns.
Proof. repeat constructor; lia. Qed.

Lemma existsb_line_insert_same (board : Board) i p pats :
  board !! i = Some None ->
  Forall distinct3 pats ->
  existsb (line_of p board) pats = false ->
  existsb (line_of p (<[i := Some p]> board)) pats
  = existsb (two_of p board i) pats.
Proof.
  intros Hi. induction pats as [|pat rest IH]; intros Hd H; [done|].
  apply Forall_cons in Hd as [Hd1 Hd2].
  cbn [existsb] in *. apply orb_false_elim in H as [H1 H2].
  rewrite (line_of_insert_same board i p pat Hi Hd1), H1, (IH Hd2 H2).
  by rewrite orb_false_r.
Qed.

Lemma has_line_insert_same (board : Board) i p :
  board !! i = Some None ->
  has_line p board = false ->
  has_line p (<[i := Some p]> board) = threat p board i.
Proof.
  intros Hi H. unfold has_line, threat. rewrite Hi.
  by apply existsb_line_insert_same; [| apply winPatterns_distinct |].
Qed.

(** On a board without a line, a new mark of [p] wins exactly when it
    completes a threat of [p]. *)
Lemma checkWinner_insert (board : Board) i p :
  checkWinnerForMiniMax board = None ->
  board !! i = Some None ->
  checkWinnerForMiniMax (<[i := Some p]> board)
  = if threat p board i then Some p else None.
Proof.
  intros Hw Hi. pose proof (proj1 (checkWinner_None board) Hw) as Hno.
  pose proof (has_line_insert_same board i p Hi (Hno p)) as Hsame.
  destruct (checkWinnerForMiniMax (<[i := Some p]> board)) as [q|] eqn:E.
  - apply checkWinner_Some in E.
    destruct (decide (q = p)) as [->|Hqp].
    + by rewrite <- Hsame, E.
    + apply has_line_insert_other in E; [|done..]. by rewrite Hno in E.
  - rewrite <- Hsame. by rewrite (proj1 (checkWinner_None _) E p).
Qed.

(** ** The recursion equation of plain minimax *)

Lemma minimax_plain_eq (board : Board) depth isMax :
  minimax_plain board depth isMax =
  match checkWinnerForMiniMax board with
  | Some X => Fin (10 - depth)
  | Some O => Fin (depth - 10)
  | None =>
      if isBoardFull board then Fin 0
      else if isMax
      then max_of (map (fun i => minimax_plain (<[i := Some X]> board)
                                   (depth + 1) false) (emptyCells board))
      else min_of (map (fun i => minimax_plain (<[i := Some O]> board)
                                   (depth + 1) true) (emptyCells board))
  end.
Proof.
  unfold minimax_plain at 1. simpl.
  destruct (checkWinnerForMiniMax board) as [[|]|]; [done|done|].
  destruct (isBoardFull board); [done|].
  destruct isMax; f_equal; apply map_ext_in; intros j Hj;
    apply list_elem_of_In, elem_of_emptyCells in Hj;
    apply minimax_plain_unfold.
  - pose proof (count_empty_insert board j X Hj). lia.
  - pose proof (count_empty_insert board j O Hj). lia.
Qed.

Lemma count_empty_le_length (board : Board) :
  (count_empty board <= length board)%nat.
Proof. induction board as [|[p|] rest IH]; simpl; lia. Qed.

(** Without a winner on the board the score is a draw or comes from the
    children, one ply deeper. *)
Lemma plain_range_no_winner (board : Board) depth isMax :
  checkWinnerForMiniMax board = None ->
  in_range (score_lo (depth + 1) (count_empty board - 1))
    (score_hi (depth + 1) (count_empty board - 1))
    (minimax_plain board depth isMax).
Proof.
  intros Hw. rewrite minimax_plain_eq, Hw.
  destruct (isBoardFull board) eqn:Efull.
  { unfold score_lo, score_hi. simpl. lia. }
  assert (Hne : emptyCells board <> []).
  { intros E. apply emptyCells_nil in E. congruence. }
  assert (Hch : forall p m, Forall
            (in_range (score_lo (depth + 1) (count_empty board - 1))
               (score_hi (depth + 1) (count_empty board - 1)))
            (map (fun i => minimax_plain (<[i := Some p]> board) (depth + 1) m)
               (emptyCells board))).
  { intros p m. apply Forall_forall. intros n Hn.
    apply list_elem_of_fmap in Hn as (j & -> & Hj).
    apply elem_of_emptyCells in Hj.
    pose proof (count_empty_insert board j p Hj) as Hc.
    replace (count_empty board - 1)%nat
      with (count_empty (<[j := Some p]> board)) by lia.
    apply plain_range. }
  destruct isMax; [apply max_of_range | apply min_of_range];
    try apply Hch; by destruct (emptyCells board).
Qed.

Lemma min_of_le (l : list num) x : x ∈ l -> num_le (min_of l) x.
Proof.
  induction l as [|y l IH]; intros Hx; [by apply elem_of_nil in Hx|].
  change (min_of (y :: l)) with (num_min y (min_of l)).
  apply elem_of_cons in Hx as [->|Hx].
  - generalize (min_of l). intros m. num_cases.
  - specialize (IH Hx). revert IH. generalize (min_of l). intros m.
    num_cases.
Qed.

(** ** Threats under a new mark *)

Lemma cell_is_insert_mono (board : Board) j q p t :
  board !! j = Some None ->
  cell_is p (board !! t) = true ->
  cell_is p (<[j := Some q]> board !! t) = true.
Proof.
  intros Hj Ht. rewrite cell_is_insert by done.
  destruct (Nat.eqb_spec t j) as [->|]; [|done]. by rewrite Hj in Ht.
Qed.

Lemma cell_is_insert_other (board : Board) j q p t :
  board !! j = Some None -> p <> q ->
  cell_is p (<[j := Some q]> board !! t) = true ->
  cell_is p (board !! t) = true.
Proof.
  intros Hj Hpq. rewrite cell_is_insert by done.
  destruct (t =? j)%nat; [|done].
  intros H. by apply Player_eqb_eq in H.
Qed.

Lemma two_of_impl (p : Player) (b1 b2 : Board) i pat :
  (forall t, cell_is p (b1 !! t) = true -> cell_is p (b2 !! t) = true) ->
  two_of p b1 i pat = true -> two_of p b2 i pat = true.
Proof.
  destruct pat as [[a b] c]. intros H. unfold two_of.
  rewrite !orb_true_iff, !andb_true_iff. intuition auto.
Qed.

Lemma existsb_impl {A} (f g : A -> bool) l :
  (forall x, f x = true -> g x = true) ->
  existsb f l = true -> existsb g l = true.
Proof.
  intros H. rewrite !existsb_exists. intros (x & Hx & Hf). eauto.
Qed.

(** A threat survives a mark elsewhere. *)
Lemma threat_insert_mono (board : Board) j q p c :
  board !! j = Some None -> j <> c ->
  threat p board c = true -> threat p (<[j := Some q]> board) c = true.
Proof.
  intros Hj Hne. unfold threat. rewrite !andb_true_iff.
  intros [Hn Ht]. split.
  - by rewrite list_lookup_insert_ne.
  - revert Ht. apply existsb_impl. intros pat. apply two_of_impl.
    intros t. by apply cell_is_insert_mono.
Qed.

(** A mark of the other player creates no threat. *)
Lemma threat_insert_other (board : Board) j q p c :
  board !! j = Some None -> j <> c -> p <> q ->
  threat p (<[j := Some q]> board) c = true -> threat p board c = true.
Proof.
  intros Hj Hne Hpq. unfold threat. rewrite !andb_true_iff.
  rewrite list_lookup_insert_ne by done.
  intros [Hn Ht]. split; [done|].
  revert Ht. apply existsb_impl. intros pat. apply two_of_impl.
  intros t. by apply cell_is_insert_other.
Qed.

Lemma threat_empty (p : Player) (board : Board) i :
  threat p board i = true -> board !! i = Some None.
Proof.
  unfold threat. intros H. apply andb_true_iff in H as [H _].
  by apply is_null_Some.
Qed.

(** ** Sortedness of the visited cells *)

Lemma filter_seq_sorted (f : nat -> bool) n :
  forall i, StronglySorted lt (List.filter f (seq i n)).
Proof.
  induction n as [|n IH]; intros i; simpl; [constructor|].
  destruct (f i); [|apply IH].
  constructor; [apply IH|].
  apply List.Forall_forall. intros j Hj.
  apply filter_In in Hj as [Hj _]. apply in_seq in Hj. lia.
Qed.

Lemma emptyCells_sorted (board : Board) : StronglySorted lt (emptyCells board).
Proof. apply filter_seq_sorted. Qed.

(** * The claims *)

(** C1. For every board and depth, [minimax] checks its base cases in this
    order: a win of X reported by the evaluator gives [10 - depth]; else a
    win of O gives [depth - 10]; else a full board gives [0]; only otherwise
    does it enter the loop over the children, which is where it recurses.
    The base cases return with fuel 1, that is without any recursive
    call. *)
Theorem minimax_base_cases (board : Board) depth isMaximizing alpha beta :
  (checkWinnerForMiniMax board = Some X ->
     minimax 1 board depth isMaximizing alpha beta
     = Some (board, Fin (10 - depth)))
  /\ (checkWinnerForMiniMax board = Some O ->
     minimax 1 board depth isMaximizing alpha beta
     = Some (board, Fin (depth - 10)))
  /\ (checkWinnerForMiniMax board = None -> isBoardFull board = true ->
     minimax 1 board depth isMaximizing alpha beta = Some (board, Fin 0))
  /\ (checkWinnerForMiniMax board = None -> isBoardFull board = false ->
     forall fuel,
       minimax (S fuel) board depth isMaximizing alpha beta
       = if isMaximizing
         then max_loop (minimax fuel) (length board) 0 board depth
                alpha beta NegInf
         else min_loop (minimax fuel) (length board) 0 board depth
                alpha beta PosInf).
Proof.
  repeat split.
  - intros H. simpl. by rewrite H.
  - intros H. simpl. by rewrite H.
  - intros H1 H2. simpl. by rewrite H1, H2.
  - intros H1 H2 fuel. simpl. by rewrite H1, H2.
Qed.

Lemma minimax_base_cases_witness :
  minimax 1 board_full_won 3 true NegInf PosInf = Some (board_full_won, Fin 7).
Proof.
  apply (proj1 (minimax_base_cases board_full_won 3 true NegInf PosInf)).
  reflexivity.
Defined.

(** C2. For every board, depth and turn flag, [minimax] called with the
    initial bounds [-Infinity] and [Infinity] returns the score of plain
    minimax without pruning, and [getBestMove] selects the move that plain
    minimax selects. *)
Theorem pruning_preserves_value fuel (board : Board) depth isMaximizing :
  (count_empty board < fuel)%nat ->
  minimax fuel board depth isMaximizing NegInf PosInf
  = Some (board, minimax_plain board depth isMaximizing)
  /\ getBestMove fuel board = Some (board, getBestMove_plain board).
Proof.
  intros Hf. split.
  - by apply minimax_is_plain.
  - apply getBestMove_is_plain. lia.
Qed.

Lemma pruning_preserves_value_witness :
  minimax 6 board_win_or_block 0 true NegInf PosInf
  = Some (board_win_or_block, minimax_plain board_win_or_block 0 true)
  /\ getBestMove 6 board_win_or_block
     = Some (board_win_or_block, getBestMove_plain board_win_or_block).
Proof.
  apply (pruning_preserves_value 6 board_win_or_block 0 true).
  simpl. lia.
Defined.

Lemma cellScore_plain fuel (board : Board) j :
  (count_empty board <= fuel)%nat ->
  j ∈ emptyCells board ->
  cellScore fuel board j
  = Some (minimax_plain (<[j := Some X]> board) 0 false).
Proof.
  intros Hf Hj. apply elem_of_emptyCells in Hj. unfold cellScore.
  rewrite minimax_is_plain; [done|].
  pose proof (count_empty_insert board j X Hj). lia.
Qed.

(** C3. For every board, [getBestMove] iterates the empty cells in
    increasing index order ([emptyCells] is that list), scores each by
    [cellScore], and returns the cell whose score is strictly greater than
    the score of every earlier cell and at least the score of every later
    one: on equal scores the lowest index is kept. *)
Theorem getBestMove_first_strict_max fuel (board : Board) :
  (count_empty board <= fuel)%nat ->
  StronglySorted lt (emptyCells board)
  /\ (forall i, i ∈ emptyCells board <-> board !! i = Some None)
  /\ (emptyCells board = [] -> getBestMove fuel board = Some (board, -1))
  /\ (emptyCells board <> [] ->
      exists earlier i later s,
        emptyCells board = earlier ++ i :: later
        /\ getBestMove fuel board = Some (board, Z.of_nat i)
        /\ cellScore fuel board i = Some s
        /\ Forall (fun j => exists sj, cellScore fuel board j = Some sj
                                       /\ num_lt sj s) earlier
        /\ Forall (fun j => exists sj, cellScore fuel board j = Some sj
                                       /\ num_le sj s) later).
Proof.
  intros Hf. split; [apply emptyCells_sorted|].
  split; [intros i; apply elem_of_emptyCells|].
  rewrite (getBestMove_is_plain fuel board Hf). unfold getBestMove_plain.
  split.
  - intros ->. reflexivity.
  - intros Hne.
    destruct (pick_best_first_max
                (fun i => minimax_plain (<[i := Some X]> board) 0 false)
                (emptyCells board) Hne)
      as (pre & i & post & Hsplit & Hpick & Hpre & Hpost).
    { intros j _ E.
      destruct (plain_finite (<[j := Some X]> board) 0 false) as [v Hv].
      congruence. }
    exists pre, i, post, (minimax_plain (<[i := Some X]> board) 0 false).
    assert (Hin : forall j, j ∈ pre ++ i :: post -> j ∈ emptyCells board)
      by (intros j; by rewrite Hsplit).
    split; [done|]. split; [by rewrite Hpick|].
    split; [apply cellScore_plain; [done|]; apply Hin; rewrite elem_of_app, elem_of_cons; auto|].
    split.
    + apply Forall_forall. intros j Hj. eexists. split.
      * apply cellScore_plain; [done|]. apply Hin. rewrite elem_of_app, elem_of_cons; auto.
      * by apply (proj1 (Forall_forall _ _) Hpre).
    + apply Forall_forall. intros j Hj. eexists. split.
      * apply cellScore_plain; [done|]. apply Hin. rewrite elem_of_app, elem_of_cons; auto.
      * by apply (proj1 (Forall_forall _ _) Hpost).
Qed.

Lemma getBestMove_first_strict_max_witness :
  exists earlier i later s,
    emptyCells board_win_or_block = earlier ++ i :: later
    /\ getBestMove 6 board_win_or_block
       = Some (board_win_or_block, Z.of_nat i)
    /\ cellScore 6 board_win_or_block i = Some s
    /\ Forall (fun j => exists sj, cellScore 6 board_win_or_block j = Some sj
                                   /\ num_lt sj s) earlier
    /\ Forall (fun j => exists sj, cellScore 6 board_win_or_block j = Some sj
                                   /\ num_le sj s) later.
Proof.
  apply (getBestMove_first_strict_max 6 board_win_or_block).
  - simpl. lia.
  - discriminate.
Defined.

Lemma cell_is_true p (v : option CellValue) :
  cell_is p v = true <-> v = Some (Some p).
Proof.
  destruct v as [[q|]|]; simpl; [|intuition congruence..].
  rewrite Player_eqb_eq. intuition congruence.
Qed.

Lemma has_line_cells p (board : Board) :
  has_line p board = true <->
  exists a b c, In (a, b, c) winPatterns
                /\ board !! a = Some (Some p)
                /\ board !! b = Some (Some p)
                /\ board !! c = Some (Some p).
Proof.
  unfold has_line. rewrite existsb_exists. split.
  - intros ([[a b] c] & Hin & Hl). unfold line_of in Hl.
    apply andb_true_iff in Hl as [Hl Hc]. apply andb_true_iff in Hl as [Ha Hb].
    exists a, b, c. by rewrite <- !cell_is_true.
  - intros (a & b & c & Hin & Ha & Hb & Hc). exists (a, b, c).
    split; [done|]. unfold line_of. rewrite Ha, Hb, Hc. simpl.
    by rewrite (proj2 (Player_eqb_eq p p) eq_refl).
Qed.

Lemma isBoardFull_Forall (board : Board) :
  isBoardFull board = true <-> Forall (fun cell => cell <> None) board.
Proof.
  induction board as [|c rest IH]; simpl.
  - split; [constructor | done].
  - rewrite Forall_cons, andb_true_iff, IH. destruct c; intuition congruence.
Qed.

(** C4. The evaluator checks exactly the eight fixed triples for three equal
    non-empty cells and reports a player who has such a triple; a draw is
    reported only when there is no winner and every cell is non-empty, so on
    a board that is both full and won the win is reported and the draw is
    not. *)
Theorem evaluator_checks_eight_triples (board : Board) :
  winPatterns = [ (0, 1, 2); (3, 4, 5); (6, 7, 8);
                  (0, 3, 6); (1, 4, 7); (2, 5, 8);
                  (0, 4, 8); (2, 4, 6) ]%nat
  /\ (forall p, checkWinnerForMiniMax board = Some p ->
        exists a b c, In (a, b, c) winPatterns
                      /\ board !! a = Some (Some p)
                      /\ board !! b = Some (Some p)
                      /\ board !! c = Some (Some p))
  /\ (forall p a b c,
        In (a, b, c) winPatterns ->
        board !! a = Some (Some p) ->
        board !! b = Some (Some p) ->
        board !! c = Some (Some p) ->
        exists q, checkWinnerForMiniMax board = Some q)
  /\ fst (checkOutcome board) = checkWinnerForMiniMax board
  /\ (snd (checkOutcome board) = true <->
        checkWinnerForMiniMax board = None
        /\ Forall (fun cell => cell <> None) board)
  /\ (forall p, checkWinnerForMiniMax board = Some p ->
        checkOutcome board = (Some p, false)
        /\ evaluate board = match p with X => AIWin | O => OpponentWin end).
Proof.
  split; [reflexivity|]. split; [|split; [|split; [reflexivity|split]]].
  - intros p H. apply has_line_cells. by apply checkWinner_Some.
  - intros p a b c Hin Ha Hb Hc.
    destruct (checkWinnerForMiniMax board) as [q|] eqn:E; [eauto|].
    pose proof (proj1 (checkWinner_None board) E p) as Hno.
    assert (has_line p board = true) as Hl
      by (apply has_line_cells; eauto 8).
    congruence.
  - unfold checkOutcome. simpl. rewrite <- isBoardFull_Forall.
    destruct (checkWinnerForMiniMax board); simpl; intuition congruence.
  - intros p H. unfold evaluate, checkOutcome. rewrite H. simpl.
    by destruct p.
Qed.

Lemma evaluator_checks_eight_triples_witness :
  checkOutcome board_full_won = (Some X, false)
  /\ evaluate board_full_won = AIWin.
Proof.
  apply (proj2 (proj2 (proj2 (proj2 (proj2
           (evaluator_checks_eight_triples board_full_won))))) X).
  reflexivity.
Defined.

Lemma getBestMove_frame fuel (board : Board) b' k :
  getBestMove fuel board = Some (b', k) -> b' = board.
Proof. apply best_loop_frame. intros *. apply minimax_frame. Qed.

(** C5. Every call of [minimax] and of [getBestMove] leaves the array as it
    found it, with or without a cut-off, and every child is explored on the
    array of the call with only its own mark added: [minimax] computes
    [alphabeta], whose children are [<[i:=mark]> board]. *)
Theorem search_restores_board fuel (board : Board) depth isMaximizing
    alpha beta :
  (forall b' s,
      minimax fuel board depth isMaximizing alpha beta = Some (b', s) ->
      b' = board)
  /\ (forall b' k, getBestMove fuel board = Some (b', k) -> b' = board)
  /\ ((count_empty board < fuel)%nat ->
      minimax fuel board depth isMaximizing alpha beta
      = Some (board, alphabeta fuel board depth isMaximizing alpha beta)
      /\ exists k, getBestMove fuel board = Some (board, k)).
Proof.
  split; [|split].
  - intros b' s. apply minimax_frame.
  - intros b' k. apply getBestMove_frame.
  - intros Hf. split; [by apply minimax_alphabeta|].
    eexists. apply getBestMove_is_plain. lia.
Qed.

Lemma search_restores_board_witness :
  minimax 6 board_win_or_block 0 false (Fin 0) (Fin 1)
  = Some (board_win_or_block,
          alphabeta 6 board_win_or_block 0 false (Fin 0) (Fin 1))
  /\ exists k, getBestMove 6 board_win_or_block = Some (board_win_or_block, k).
Proof.
  apply (search_restores_board 6 board_win_or_block 0 false (Fin 0) (Fin 1)).
  simpl. lia.
Defined.

(** [getBestMove] returns [-1] on a board without empty cell and an empty
    cell otherwise. *)
Lemma getBestMove_empty_cell fuel (board : Board) :
  (count_empty board <= fuel)%nat ->
  (emptyCells board = [] /\ getBestMove fuel board = Some (board, -1))
  \/ (exists i, i ∈ emptyCells board
                /\ getBestMove fuel board = Some (board, Z.of_nat i)).
Proof.
  intros Hf. rewrite (getBestMove_is_plain fuel board Hf).
  unfold getBestMove_plain.
  destruct (emptyCells board) as [|c rest] eqn:E; [by left|]. right.
  destruct (pick_best_first_max
              (fun i => minimax_plain (<[i := Some X]> board) 0 false)
              (c :: rest) ltac:(done))
    as (pre & i & post & Hsplit & Hpick & _).
  { intros j _ Ej.
    destruct (plain_finite (<[j := Some X]> board) 0 false) as [v Hv].
    congruence. }
  exists i. split; [|by rewrite Hpick].
  rewrite Hsplit, elem_of_app, elem_of_cons. auto.
Qed.

(** C6. On a 9-cell board [getBestMove] returns the sentinel [-1] if and
    only if the board has no empty cell; otherwise it returns an index in
    [0, 8] whose cell is empty. *)
Theorem getBestMove_sentinel fuel (board : Board) :
  length board = 9%nat ->
  (count_empty board <= fuel)%nat ->
  exists k,
    getBestMove fuel board = Some (board, k)
    /\ (k = -1 <-> forall i, board !! i <> Some None)
    /\ (k <> -1 -> 0 <= k <= 8 /\ board !! Z.to_nat k = Some None).
Proof.
  intros Hlen Hf.
  destruct (getBestMove_empty_cell fuel board Hf) as [[He Hk]|H].
  - exists (-1). split; [done|]. split; [|done]. split; [|done].
    intros _ i Hi. apply elem_of_emptyCells in Hi. rewrite He in Hi.
    by apply elem_of_nil in Hi.
  - destruct H as (i & Hi & Hk). exists (Z.of_nat i). split; [done|].
    apply elem_of_emptyCells in Hi. split.
    + split; [lia|]. intros H. by destruct (H i).
    + intros _. rewrite Nat2Z.id. split; [|done].
      apply lookup_lt_Some in Hi. lia.
Qed.

Lemma getBestMove_sentinel_witness :
  exists k,
    getBestMove 9 board_win_or_block = Some (board_win_or_block, k)
    /\ (k = -1 <-> forall i, board_win_or_block !! i <> Some None)
    /\ (k <> -1 ->
        0 <= k <= 8 /\ board_win_or_block !! Z.to_nat k = Some None).
Proof.
  apply (getBestMove_sentinel 9 board_win_or_block).
  - reflexivity.
  - simpl. lia.
Defined.

(** ** Scores of the moves at the root *)

Lemma score_winning_move (board : Board) w :
  checkWinnerForMiniMax board = None ->
  threat X board w = true ->
  minimax_plain (<[w := Some X]> board) 0 false = Fin 10.
Proof.
  intros Hw Ht. rewrite minimax_plain_eq.
  rewrite (checkWinner_insert board w X Hw (threat_empty X board w Ht)), Ht.
  reflexivity.
Qed.

Lemma count_empty_insert_le9 (board : Board) j p :
  length board = 9%nat -> board !! j = Some None ->
  (count_empty (<[j := Some p]> board) <= 8)%nat.
Proof.
  intros Hlen Hj. pose proof (count_empty_insert board j p Hj).
  pose proof (count_empty_le_length board). lia.
Qed.

Lemma score_quiet_move (board : Board) j :
  length board = 9%nat ->
  checkWinnerForMiniMax board = None ->
  board !! j = Some None ->
  threat X board j = false ->
  in_range (-9) 9 (minimax_plain (<[j := Some X]> board) 0 false).
Proof.
  intros Hlen Hw Hj Ht.
  pose proof (count_empty_insert_le9 board j X Hlen Hj) as Hc.
  eapply in_range_mono; [| | apply plain_range_no_winner].
  - unfold score_lo. lia.
  - unfold score_hi. lia.
  - by rewrite (checkWinner_insert board j X Hw Hj), Ht.
Qed.

(** After the block, the opponent cannot win at once: the score is at least
    that of a loss two plies later. *)
Lemma score_blocking_move (board : Board) c :
  length board = 9%nat ->
  checkWinnerForMiniMax board = None ->
  threat X board c = false ->
  threat O board c = true ->
  (forall j, threat O board j = true -> j = c) ->
  in_range (-8) 8 (minimax_plain (<[c := Some X]> board) 0 false).
Proof.
  intros Hlen Hw HtX HtO Huniq.
  pose proof (threat_empty O board c HtO) as Hc.
  assert (Hwc : checkWinnerForMiniMax (<[c := Some X]> board) = None)
    by by rewrite (checkWinner_insert board c X Hw Hc), HtX.
  rewrite minimax_plain_eq, Hwc.
  destruct (isBoardFull (<[c := Some X]> board)) eqn:Efull; [simpl; lia|].
  apply min_of_range.
  { intros E. apply fmap_nil_inv, emptyCells_nil in E. congruence. }
  apply Forall_forall. intros n Hn.
  apply list_elem_of_fmap in Hn as (e & -> & He).
  apply elem_of_emptyCells in He.
  assert (Hec : e <> c).
  { intros ->. rewrite list_lookup_insert_eq in He; [done|].
    by eapply lookup_lt_Some. }
  assert (Hte : threat O (<[c := Some X]> board) e = false).
  { destruct (threat O (<[c := Some X]> board) e) eqn:E; [|done].
    apply threat_insert_other in E; [|done..]. by apply Huniq in E. }
  pose proof (count_empty_insert_le9 board c X Hlen Hc) as Hcnt.
  pose proof (count_empty_insert (<[c := Some X]> board) e O He) as Hcnt'.
  eapply in_range_mono; [| | apply plain_range_no_winner].
  - unfold score_lo. lia.
  - unfold score_hi. lia.
  - by rewrite (checkWinner_insert _ e O Hwc He), Hte.
Qed.

(** Any other move leaves the threat open: the opponent wins at the next
    ply. *)
Lemma score_unblocked_move (board : Board) c j :
  checkWinnerForMiniMax board = None ->
  threat X board j = false ->
  threat O board c = true ->
  board !! j = Some None -> j <> c ->
  exists v, minimax_plain (<[j := Some X]> board) 0 false = Fin v /\ v <= -9.
Proof.
  intros Hw HtX HtO Hj Hne.
  pose proof (threat_empty O board c HtO) as Hc.
  assert (Hwj : checkWinnerForMiniMax (<[j := Some X]> board) = None)
    by by rewrite (checkWinner_insert board j X Hw Hj), HtX.
  assert (Hcj : <[j := Some X]> board !! c = Some None)
    by by rewrite list_lookup_insert_ne.
  destruct (plain_finite (<[j := Some X]> board) 0 false) as [v Hv].
  exists v. split; [done|]. revert Hv.
  rewrite minimax_plain_eq, Hwj.
  destruct (isBoardFull (<[j := Some X]> board)) eqn:Efull.
  { by destruct (proj1 (isBoardFull_true _) Efull c). }
  intros Hv.
  assert (Hle : num_le (Fin v) (Fin (0 + 1 - 10))); [|simpl in Hle; lia].
  rewrite <- Hv. apply min_of_le, list_elem_of_fmap.
  exists c. split; [|by apply elem_of_emptyCells].
  rewrite minimax_plain_eq, (checkWinner_insert _ c O Hwj Hcj).
  by rewrite (threat_insert_mono board j X O c Hj Hne HtO).
Qed.

(** C7. On a 9-cell board without a winner on which exactly one move
    completes three in a row for X, [getBestMove] returns that cell; on the
    board [X,X,_,O,O,_,_,_,_] it returns 2. *)
Theorem getBestMove_takes_win :
  (forall fuel (board : Board) w,
      length board = 9%nat ->
      (count_empty board <= fuel)%nat ->
      checkWinnerForMiniMax board = None ->
      threat X board w = true ->
      (forall j, threat X board j = true -> j = w) ->
      getBestMove fuel board = Some (board, Z.of_nat w))
  /\ (forall fuel, (5 <= fuel)%nat ->
        getBestMove fuel board_win_or_block = Some (board_win_or_block, 2)).
Proof.
  assert (H : forall fuel (board : Board) w,
      length board = 9%nat ->
      (count_empty board <= fuel)%nat ->
      checkWinnerForMiniMax board = None ->
      threat X board w = true ->
      (forall j, threat X board j = true -> j = w) ->
      getBestMove fuel board = Some (board, Z.of_nat w)).
  { intros fuel board w Hlen Hf Hw Ht Huniq.
    rewrite (getBestMove_is_plain fuel board Hf). f_equal. f_equal.
    apply pick_best_unique.
    - intros j Hj Hne. apply elem_of_emptyCells in Hj.
      rewrite (score_winning_move board w Hw Ht).
      assert (Htj : threat X board j = false).
      { destruct (threat X board j) eqn:E; [|done]. by apply Huniq in E. }
      pose proof (score_quiet_move board j Hlen Hw Hj Htj) as Hr.
      destruct (minimax_plain _ _ _); simpl in *; [done | lia | done].
    - left. split.
      + by apply elem_of_emptyCells, (threat_empty X).
      + by rewrite (score_winning_move board w Hw Ht). }
  split; [exact H|].
  intros fuel Hf. apply (H fuel board_win_or_block 2%nat); try done.
  intros j. do 9 (destruct j as [|j]; try done).
Qed.

Lemma getBestMove_takes_win_witness :
  getBestMove 5 board_win_or_block = Some (board_win_or_block, Z.of_nat 2).
Proof.
  apply (proj1 getBestMove_takes_win 5%nat board_win_or_block 2%nat).
  - reflexivity.
  - simpl. lia.
  - reflexivity.
  - reflexivity.
  - intros j. do 9 (destruct j as [|j]; try done).
Defined.

(** C8, as the code has it.  On a 9-cell board without a winner on which X
    has no winning move and cell [c] is the only cell where O has two in a
    row with the third cell empty, [getBestMove] returns [c]. *)
Theorem getBestMove_blocks fuel (board : Board) c :
  length board = 9%nat ->
  (count_empty board <= fuel)%nat ->
  checkWinnerForMiniMax board = None ->
  (forall j, threat X board j = false) ->
  threat O board c = true ->
  (forall j, threat O board j = true -> j = c) ->
  getBestMove fuel board = Some (board, Z.of_nat c).
Proof.
  intros Hlen Hf Hw HtX HtO Huniq.
  rewrite (getBestMove_is_plain fuel board Hf). f_equal. f_equal.
  pose proof (score_blocking_move board c Hlen Hw (HtX c) HtO Huniq) as Hc.
  apply pick_best_unique.
  - intros j Hj Hne. apply elem_of_emptyCells in Hj.
    destruct (score_unblocked_move board c j Hw (HtX j) HtO Hj Hne)
      as (v & -> & Hv).
    destruct (minimax_plain _ _ _); simpl in *; [done | lia | done].
  - left. split.
    + by apply elem_of_emptyCells, (threat_empty O).
    + by destruct (minimax_plain _ _ _).
Qed.

Lemma getBestMove_blocks_witness :
  getBestMove 5 board_one_threat = Some (board_one_threat, 7).
Proof.
  apply (getBestMove_blocks 5 board_one_threat 7).
  - reflexivity.
  - simpl. lia.
  - reflexivity.
  - intros j. do 9 (destruct j as [|j]; try reflexivity).
  - reflexivity.
  - intros j. do 9 (destruct j as [|j]; try done).
Defined.

(** C8 as stated fails: with a winning move of its own the engine wins
    rather than blocks, and facing two threats it blocks neither. *)
Lemma getBestMove_blocks_counterexample :
  (length board_win_or_block = 9%nat
   /\ checkWinnerForMiniMax board_win_or_block = None
   /\ isBoardFull board_win_or_block = false
   /\ threat O board_win_or_block 5 = true
   /\ getBestMove 9 board_win_or_block = Some (board_win_or_block, 2)
   /\ getBestMove 9 board_win_or_block <> Some (board_win_or_block, 5))
  /\ (length board_double_threat = 9%nat
      /\ checkWinnerForMiniMax board_double_threat = None
      /\ isBoardFull board_double_threat = false
      /\ threat O board_double_threat 5 = true
      /\ threat O board_double_threat 6 = true
      /\ getBestMove 9 board_double_threat = Some (board_double_threat, 3)
      /\ getBestMove 9 board_double_threat <> Some (board_double_threat, 5)
      /\ getBestMove 9 board_double_threat <> Some (board_double_threat, 6)).
Proof. vm_compute. repeat split; discriminate. Qed.
(** ** Self-play *)

Lemma getBestMove_fuel fuel (board : Board) :
  length board = 9%nat -> (9 <= fuel)%nat ->
  getBestMove fuel board = getBestMove 9 board.
Proof.
  intros Hlen Hf. pose proof (count_empty_le_length board).
  rewrite !getBestMove_is_plain; [done | lia | lia].
Qed.

Lemma engineMove_fuel fuel p (board : Board) :
  length board = 9%nat -> (9 <= fuel)%nat ->
  engineMove fuel p board = engineMove 9 p board.
Proof.
  intros Hlen Hf. unfold engineMove.
  rewrite getBestMove_fuel; [done | | done].
  destruct p; [done|]. unfold swapBoard. by rewrite length_map.
Qed.

Lemma selfPlay_fuel fuel plies :
  (9 <= fuel)%nat ->
  forall p (board : Board),
    length board = 9%nat ->
    selfPlay plies fuel p board = selfPlay plies 9 p board.
Proof.
  intros Hf. induction plies as [|plies IH]; intros p board Hlen; [done|].
  simpl. destruct (evaluate board); try done.
  rewrite (engineMove_fuel fuel p board Hlen Hf).
  destruct (engineMove 9 p board) as [i|]; [|done].
  apply IH. by rewrite length_insert.
Qed.

(** C9. On the empty board [getBestMove] returns a corner or the centre, and
    the game in which both sides play the move of the engine, from the empty
    board, ends in a draw. *)
Theorem selfplay_draw fuel :
  (9 <= fuel)%nat ->
  (exists k, getBestMove fuel emptyBoard = Some (emptyBoard, k)
             /\ (k = 0 \/ k = 2 \/ k = 4 \/ k = 6 \/ k = 8))
  /\ fst (selfPlay 9 fuel X emptyBoard) = Draw.
Proof.
  intros Hf. split.
  - exists 0. split; [|by left].
    rewrite (getBestMove_fuel fuel emptyBoard eq_refl Hf).
    vm_compute. reflexivity.
  - rewrite (selfPlay_fuel fuel 9 Hf X emptyBoard eq_refl).
    vm_compute. reflexivity.
Qed.

Lemma selfplay_draw_witness :
  (exists k, getBestMove 9 emptyBoard = Some (emptyBoard, k)
             /\ (k = 0 \/ k = 2 \/ k = 4 \/ k = 6 \/ k = 8))
  /\ fst (selfPlay 9 9 X emptyBoard) = Draw.
Proof.
  apply (selfplay_draw 9). lia.
Defined.

(** ** Reachable boards *)

Lemma evaluate_Undecided (board : Board) :
  evaluate board = Undecided -> checkWinnerForMiniMax board = None.
Proof.
  unfold evaluate, checkOutcome.
  destruct (checkWinnerForMiniMax board) as [[|]|]; simpl; try done.
Qed.

Lemma swapPlayer_neq p : swapPlayer p <> p.
Proof. by destruct p. Qed.

Lemma playFrom_one_side moves :
  forall p (board board' : Board),
    has_line X board && has_line O board = false ->
    playFrom moves p board = Some board' ->
    has_line X board' && has_line O board' = false.
Proof.
  induction moves as [|i rest IH]; intros p board board' Hb; simpl.
  - congruence.
  - destruct (evaluate board) eqn:Eev; try done.
    destruct (is_null (board !! i)) eqn:En; [|done].
    apply is_null_Some in En. apply IH.
    pose proof (proj1 (checkWinner_None board) (evaluate_Undecided board Eev))
      as Hno.
    assert (Ho : has_line (swapPlayer p) (<[i := Some p]> board) = false).
    { destruct (has_line (swapPlayer p) (<[i := Some p]> board)) eqn:E;
        [|done].
      apply has_line_insert_other in E;
        [by rewrite Hno in E | done | apply swapPlayer_neq]. }
    destruct p; simpl in Ho; rewrite Ho; [apply andb_false_r | done].
Qed.

(** C10. On every board reached from the empty board by alternating legal
    moves, X first, at most one player has a completed triple, and the
    winner the evaluator returns is the one who has it. *)
Theorem reachable_one_winner moves (board : Board) :
  playFrom moves X emptyBoard = Some board ->
  has_line X board && has_line O board = false
  /\ forall p, checkWinnerForMiniMax board = Some p ->
               has_line p board = true
               /\ has_line (swapPlayer p) board = false.
Proof.
  intros H. apply playFrom_one_side in H; [|reflexivity].
  split; [done|]. intros p Hp. apply checkWinner_Some in Hp.
  split; [done|]. destruct p; simpl; rewrite Hp in H; simpl in H; [done|].
  by rewrite andb_true_r in H.
Qed.

Lemma reachable_one_winner_witness :
  has_line X [Some X; Some X; Some X; Some O; Some O; None; None; None; None]
  && has_line O [Some X; Some X; Some X; Some O; Some O; None; None; None; None]
  = false
  /\ forall p,
       checkWinnerForMiniMax
         [Some X; Some X; Some X; Some O; Some O; None; None; None; None]
       = Some p ->
       has_line p
         [Some X; Some X; Some X; Some O; Some O; None; None; None; None]
       = true
       /\ has_line (swapPlayer p)
            [Some X; Some X; Some X; Some O; Some O; None; None; None; None]
          = false.
Proof.
  apply (reachable_one_winner [0; 3; 1; 4; 2]%nat). reflexivity.
Defined.

(** * Further properties of the search *)

Lemma ab_max_range lo hi (child : nat -> num -> num -> num) cells :
  (forall i, i ∈ cells -> forall a b, in_range lo hi (child i a b)) ->
  forall alpha beta best,
    (best = NegInf /\ cells <> []) \/ in_range lo hi best ->
    in_range lo hi (ab_max child cells alpha beta best).
Proof.
  induction cells as [|i rest IH]; intros Hc alpha beta best Hb; simpl.
  - by destruct Hb as [[_ ?]|?].
  - pose proof (Hc i ltac:(left) alpha beta) as Hi.
    assert (Hbest : in_range lo hi (num_max (child i alpha beta) best)).
    { destruct Hb as [[-> _]|Hb]; destruct (child i alpha beta); try done.
      destruct best; simpl in *; try done. lia. }
    destruct (num_leb _ _); [done|].
    apply IH; [|by right]. intros j Hj. apply Hc. by right.
Qed.

Lemma ab_min_range lo hi (child : nat -> num -> num -> num) cells :
  (forall i, i ∈ cells -> forall a b, in_range lo hi (child i a b)) ->
  forall alpha beta best,
    (best = PosInf /\ cells <> []) \/ in_range lo hi best ->
    in_range lo hi (ab_min child cells alpha beta best).
Proof.
  induction cells as [|i rest IH]; intros Hc alpha beta best Hb; simpl.
  - by destruct Hb as [[_ ?]|?].
  - pose proof (Hc i ltac:(left) alpha beta) as Hi.
    assert (Hbest : in_range lo hi (num_min (child i alpha beta) best)).
    { destruct Hb as [[-> _]|Hb]; destruct (child i alpha beta); try done.
      destruct best; simpl in *; try done. lia. }
    destruct (num_leb _ _); [done|].
    apply IH; [|by right]. intros j Hj. apply Hc. by right.
Qed.

Lemma alphabeta_range fuel :
  forall (cells : Board) depth isMax alpha beta,
    (count_empty cells < fuel)%nat ->
    in_range (score_lo depth (count_empty cells))
      (score_hi depth (count_empty cells))
      (alphabeta fuel cells depth isMax alpha beta).
Proof.
  induction fuel as [|fuel IH]; intros cells depth isMax alpha beta Hf; [lia|].
  simpl. unfold score_lo, score_hi.
  destruct (checkWinnerForMiniMax cells) as [[|]|]; [simpl; lia ..|].
  destruct (isBoardFull cells) eqn:Efull; [simpl; lia|].
  assert (Hne : emptyCells cells <> []).
  { intros E. apply emptyCells_nil in E. congruence. }
  destruct isMax.
  - apply ab_max_range; [|by left]. intros j Hj a b.
    apply elem_of_emptyCells in Hj.
    pose proof (count_empty_insert cells j X Hj) as Hc.
    eapply in_range_mono; [| | apply IH; lia];
      unfold score_lo, score_hi; lia.
  - apply ab_min_range; [|by left]. intros j Hj a b.
    apply elem_of_emptyCells in Hj.
    pose proof (count_empty_insert cells j O Hj) as Hc.
    eapply in_range_mono; [| | apply IH; lia];
      unfold score_lo, score_hi; lia.
Qed.

(** X1. Whatever the window, [minimax] returns a finite score, never one of
    the infinities its loops start from: a win or loss at a depth between
    [depth] and [depth] plus the number of empty cells, or a draw. *)
Theorem minimax_score_range fuel (cells : Board) depth isMaximizing
    alpha beta :
  (count_empty cells < fuel)%nat ->
  exists v,
    minimax fuel cells depth isMaximizing alpha beta = Some (cells, Fin v)
    /\ score_lo depth (count_empty cells) <= v
       <= score_hi depth (count_empty cells).
Proof.
  intros Hf. rewrite minimax_alphabeta by done.
  pose proof (alphabeta_range fuel cells depth isMaximizing alpha beta Hf) as H.
  destruct (alphabeta _ _ _ _ _ _) as [|v|]; simpl in H; [done| |done].
  by exists v.
Qed.

Lemma minimax_score_range_witness :
  exists v,
    minimax 6 board_win_or_block 0 true (Fin 3) (Fin 4)
    = Some (board_win_or_block, Fin v)
    /\ score_lo 0 (count_empty board_win_or_block) <= v
       <= score_hi 0 (count_empty board_win_or_block).
Proof.
  apply (minimax_score_range 6 board_win_or_block 0 true (Fin 3) (Fin 4)).
  simpl. lia.
Defined.

(** X2. For every window with [alpha < beta], the score [minimax] returns
    brackets the plain minimax value as alpha-beta search requires: a plain
    value inside the window is returned exactly, one at or below [alpha]
    gives a score at or below [alpha], one at or above [beta] a score at or
    above [beta]. *)
Theorem minimax_window_sound fuel (cells : Board) depth isMaximizing
    alpha beta :
  (count_empty cells < fuel)%nat ->
  num_lt alpha beta ->
  exists v,
    minimax fuel cells depth isMaximizing alpha beta = Some (cells, v)
    /\ (num_lt alpha (minimax_plain cells depth isMaximizing) ->
        num_lt (minimax_plain cells depth isMaximizing) beta ->
        v = minimax_plain cells depth isMaximizing)
    /\ (num_le (minimax_plain cells depth isMaximizing) alpha ->
        num_le v alpha)
    /\ (num_le beta (minimax_plain cells depth isMaximizing) ->
        num_le beta v).
Proof.
  intros Hf Hlt. eexists. split; [by apply minimax_alphabeta|].
  rewrite <- (minimax_plain_unfold fuel cells depth isMaximizing Hf).
  by apply alphabeta_sound.
Qed.

Lemma minimax_window_sound_witness :
  exists v,
    minimax 6 board_win_or_block 0 true (Fin 3) (Fin 4)
    = Some (board_win_or_block, v)
    /\ (num_lt (Fin 3) (minimax_plain board_win_or_block 0 true) ->
        num_lt (minimax_plain board_win_or_block 0 true) (Fin 4) ->
        v = minimax_plain board_win_or_block 0 true)
    /\ (num_le (minimax_plain board_win_or_block 0 true) (Fin 3) ->
        num_le v (Fin 3))
    /\ (num_le (Fin 4) (minimax_plain board_win_or_block 0 true) ->
        num_le (Fin 4) v).
Proof.
  apply (minimax_window_sound 6 board_win_or_block 0 true (Fin 3) (Fin 4)).
  - simpl. lia.
  - simpl. lia.
Defined.

Lemma swapPlayer_cases p q : q = p \/ q = swapPlayer p.
Proof. destruct p, q; auto. Qed.

(** X3. When exactly one player has a completed triple, the evaluator
    returns that player, whatever the order of the patterns. *)
Theorem checkWinner_single_line (cells : Board) p :
  has_line p cells = true ->
  has_line (swapPlayer p) cells = false ->
  checkWinnerForMiniMax cells = Some p.
Proof.
  intros Hp Hq.
  destruct (checkWinnerForMiniMax cells) as [q|] eqn:E.
  - apply checkWinner_Some in E.
    destruct (swapPlayer_cases p q) as [->| ->]; [done | congruence].
  - pose proof (proj1 (checkWinner_None cells) E p). congruence.
Qed.

Lemma checkWinner_single_line_witness :
  checkWinnerForMiniMax board_full_won = Some X.
Proof.
  apply (checkWinner_single_line board_full_won X); reflexivity.
Defined.

(** ** Positions X does not lose *)

Lemma nonneg_max_of (l : list num) :
  nonneg (max_of l) <-> exists x, x ∈ l /\ nonneg x.
Proof.
  unfold nonneg. induction l as [|y l IH].
  - simpl. split; [done|]. intros (x & Hx & _). by apply elem_of_nil in Hx.
  - change (max_of (y :: l)) with (num_max y (max_of l)). split.
    + intros H.
      assert (Hc : num_le (Fin 0) y \/ num_le (Fin 0) (max_of l)).
      { revert H. generalize (max_of l). intros m. clear. num_cases. }
      destruct Hc as [Hc|Hc].
      * exists y. split; [left | done].
      * apply IH in Hc as (x & Hx & Hn). exists x. split; [by right | done].
    + intros (x & Hx & Hn). apply elem_of_cons in Hx as [->|Hx].
      * revert Hn. generalize (max_of l). intros m. clear. num_cases.
      * assert (Hm : num_le (Fin 0) (max_of l)) by (apply IH; eauto).
        revert Hm. generalize (max_of l). intros m. clear. num_cases.
Qed.

Lemma nonneg_min_of (l : list num) :
  nonneg (min_of l) <-> forall x, x ∈ l -> nonneg x.
Proof.
  unfold nonneg. induction l as [|y l IH].
  - simpl. split; [|done]. intros _ x Hx. by apply elem_of_nil in Hx.
  - change (min_of (y :: l)) with (num_min y (min_of l)). split.
    + intros H x Hx.
      assert (Hc : num_le (Fin 0) y /\ num_le (Fin 0) (min_of l)).
      { revert H. generalize (min_of l). intros m. clear. num_cases. }
      destruct Hc as [Hy Hm].
      apply elem_of_cons in Hx as [->|Hx]; [done|]. by apply IH.
    + intros H.
      assert (Hy : num_le (Fin 0) y) by (apply H; left).
      assert (Hm : num_le (Fin 0) (min_of l))
        by (apply IH; intros x Hx; apply H; by right).
      revert Hy Hm. generalize (min_of l). intros m. clear. num_cases.
Qed.

(** Whether a score is a loss does not depend on the depth the search
    started from, as long as no depth reaches 10. *)
Lemma nonneg_depth n :
  forall (cells : Board) d d' isMax,
    count_empty cells = n ->
    d + Z.of_nat n < 10 -> d' + Z.of_nat n <= 10 ->
    nonneg (minimax_plain cells d isMax) ->
    nonneg (minimax_plain cells d' isMax).
Proof.
  induction n as [|n IH]; intros cells d d' isMax Hn Hd Hd';
    rewrite !minimax_plain_eq;
    destruct (checkWinnerForMiniMax cells) as [[|]|];
    try (unfold nonneg; simpl; lia);
    destruct (isBoardFull cells) eqn:Efull; try done.
  - destruct (isBoardFull_false cells Efull) as [j Hj].
    pose proof (count_empty_insert cells j X Hj). lia.
  - assert (Hch : forall p j, j ∈ emptyCells cells ->
              forall m, nonneg (minimax_plain (<[j := Some p]> cells) (d + 1) m) ->
                        nonneg (minimax_plain (<[j := Some p]> cells) (d' + 1) m)).
    { intros p j Hj m. apply elem_of_emptyCells in Hj.
      pose proof (count_empty_insert cells j p Hj).
      apply IH; lia. }
    destruct isMax.
    + rewrite !nonneg_max_of. intros (x & Hx & Hnn).
      apply list_elem_of_fmap in Hx as (j & -> & Hj).
      eexists. split; [|by apply (Hch X j Hj), Hnn].
      apply list_elem_of_fmap. by exists j.
    + rewrite !nonneg_min_of. intros H x Hx.
      apply list_elem_of_fmap in Hx as (j & -> & Hj).
      apply (Hch O j Hj). apply H. apply list_elem_of_fmap. by exists j.
Qed.

Lemma notLost_plain fuel (cells : Board) isMax :
  (count_empty cells < fuel)%nat ->
  notLost fuel cells isMax <-> nonneg (minimax_plain cells 0 isMax).
Proof.
  intros Hf. unfold notLost. rewrite minimax_is_plain by done.
  unfold nonneg. destruct (plain_finite cells 0 isMax) as [v ->]. done.
Qed.

Lemma evaluate_Undecided_iff (cells : Board) :
  evaluate cells = Undecided <->
  checkWinnerForMiniMax cells = None /\ isBoardFull cells = false.
Proof.
  unfold evaluate, checkOutcome.
  destruct (checkWinnerForMiniMax cells) as [[|]|]; simpl;
    [intuition congruence..|].
  destruct (isBoardFull cells); intuition congruence.
Qed.

(** The cell [pick_best] returns has the greatest score. *)
Lemma pick_best_greatest (score : nat -> num) cells :
  cells <> [] ->
  (forall j, j ∈ cells -> score j <> NegInf) ->
  exists i, i ∈ cells
            /\ pick_best score cells NegInf (-1) = Z.of_nat i
            /\ forall j, j ∈ cells -> num_le (score j) (score i).
Proof.
  intros Hne Hfin.
  destruct (pick_best_first_max score cells Hne Hfin)
    as (pre & i & post & -> & Hpick & Hpre & Hpost).
  exists i. split; [rewrite elem_of_app, elem_of_cons; auto|].
  split; [done|]. intros j Hj.
  apply elem_of_app in Hj as [Hj|Hj].
  - apply num_lt_le. by apply (proj1 (Forall_forall _ _) Hpre).
  - apply elem_of_cons in Hj as [->|Hj]; [apply num_le_refl|].
    by apply (proj1 (Forall_forall _ _) Hpost).
Qed.

Lemma num_le_trans a b c : num_le a b -> num_le b c -> num_le a c.
Proof. num_cases. Qed.

(** The move of the AI in terms of plain minimax. *)
Lemma getBestMove_safe_move (cells : Board) :
  (count_empty cells <= 9)%nat ->
  evaluate cells = Undecided ->
  nonneg (minimax_plain cells 0 true) ->
  exists k,
    getBestMove_plain cells = Z.of_nat k
    /\ cells !! k = Some None
    /\ nonneg (minimax_plain (<[k := Some X]> cells) 0 false).
Proof.
  intros Hc Hu Hs. apply evaluate_Undecided_iff in Hu as [Hw Hfull].
  assert (Hne : emptyCells cells <> []).
  { intros E. apply emptyCells_nil in E. congruence. }
  destruct (pick_best_greatest
              (fun i => minimax_plain (<[i := Some X]> cells) 0 false)
              (emptyCells cells) Hne)
    as (k & Hk & Hpick & Hmax).
  { intros j _ E.
    destruct (plain_finite (<[j := Some X]> cells) 0 false) as [v Hv].
    congruence. }
  exists k. split; [done|]. split; [by apply elem_of_emptyCells|].
  apply (nonneg_depth (count_empty cells) cells 0 (-1) true eq_refl) in Hs;
    [|lia..].
  rewrite minimax_plain_eq, Hw, Hfull in Hs.
  apply nonneg_max_of in Hs as (x & Hx & Hnn).
  apply list_elem_of_fmap in Hx as (j & -> & Hj).
  change (-1 + 1) with 0 in Hnn.
  unfold nonneg in *. eapply num_le_trans; [exact Hnn|]. by apply Hmax.
Qed.

(** A reply of O to a position X does not lose. *)
Lemma reply_safe (cells : Board) i :
  (count_empty cells <= 9)%nat ->
  evaluate cells = Undecided ->
  nonneg (minimax_plain cells 0 false) ->
  cells !! i = Some None ->
  checkWinnerForMiniMax (<[i := Some O]> cells) = None
  /\ nonneg (minimax_plain (<[i := Some O]> cells) 0 true).
Proof.
  intros Hc Hu Hs Hi. apply evaluate_Undecided_iff in Hu as [Hw Hfull].
  rewrite minimax_plain_eq, Hw, Hfull in Hs.
  assert (Hch : nonneg (minimax_plain (<[i := Some O]> cells) (0 + 1) true)).
  { apply (proj1 (nonneg_min_of _) Hs). apply list_elem_of_fmap.
    exists i. split; [done|]. by apply elem_of_emptyCells. }
  pose proof (count_empty_insert cells i O Hi) as Hcnt.
  split.
  - rewrite (checkWinner_insert cells i O Hw Hi).
    destruct (threat O cells i) eqn:Et; [|done].
    rewrite minimax_plain_eq, (checkWinner_insert cells i O Hw Hi), Et in Hch.
    unfold nonneg in Hch. simpl in Hch. lia.
  - apply (nonneg_depth (count_empty (<[i := Some O]> cells)) _ (0 + 1) 0 true
             eq_refl); [lia | lia | done].
Qed.

(** X4. On an undecided 9-cell board on which X to move does not lose,
    [getBestMove] returns an empty cell, and with X there the position is
    again not lost, now with O to move. *)
Theorem getBestMove_keeps_notLost fuel (cells : Board) :
  length cells = 9%nat ->
  (10 <= fuel)%nat ->
  evaluate cells = Undecided ->
  notLost fuel cells true ->
  exists k,
    getBestMove fuel cells = Some (cells, Z.of_nat k)
    /\ cells !! k = Some None
    /\ notLost fuel (<[k := Some X]> cells) false.
Proof.
  intros Hlen Hf Hu Hs. pose proof (count_empty_le_length cells) as Hc.
  pose proof (evaluate_Undecided_iff cells) as [Hund _].
  destruct (Hund Hu) as [_ Hfull].
  destruct (isBoardFull_false cells Hfull) as [j Hj].
  pose proof (count_empty_insert cells j X Hj) as Hj'.
  apply notLost_plain in Hs; [|lia].
  destruct (getBestMove_safe_move cells ltac:(lia) Hu Hs) as (k & Hk & Hek & Hn).
  exists k. split; [|split; [done|]].
  - rewrite getBestMove_is_plain by lia. by rewrite Hk.
  - apply notLost_plain; [|done].
    pose proof (count_empty_insert cells k X Hek). lia.
Qed.

Lemma getBestMove_keeps_notLost_witness :
  exists k,
    getBestMove 10 board_one_threat = Some (board_one_threat, Z.of_nat k)
    /\ board_one_threat !! k = Some None
    /\ notLost 10 (<[k := Some X]> board_one_threat) false.
Proof.
  apply (getBestMove_keeps_notLost 10 board_one_threat).
  - reflexivity.
  - lia.
  - reflexivity.
  - vm_compute. discriminate.
Defined.

(** X5. On an undecided 9-cell board on which X does not lose with O to
    move, no move of O wins, and after any move of O the position is not
    lost with X to move. *)
Theorem reply_keeps_notLost fuel (cells : Board) i :
  length cells = 9%nat ->
  (10 <= fuel)%nat ->
  evaluate cells = Undecided ->
  notLost fuel cells false ->
  cells !! i = Some None ->
  checkWinnerForMiniMax (<[i := Some O]> cells) = None
  /\ notLost fuel (<[i := Some O]> cells) true.
Proof.
  intros Hlen Hf Hu Hs Hi. pose proof (count_empty_le_length cells) as Hc.
  pose proof (count_empty_insert cells i O Hi) as Hi'.
  apply notLost_plain in Hs; [|lia].
  destruct (reply_safe cells i ltac:(lia) Hu Hs Hi) as [Hw Hn].
  split; [done|]. apply notLost_plain; [lia | done].
Qed.

Lemma reply_keeps_notLost_witness :
  checkWinnerForMiniMax (<[0%nat := Some O]> (<[4%nat := Some X]> emptyBoard))
  = None
  /\ notLost 10 (<[0%nat := Some O]> (<[4%nat := Some X]> emptyBoard)) true.
Proof.
  apply (reply_keeps_notLost 10 (<[4%nat := Some X]> emptyBoard) 0).
  - reflexivity.
  - lia.
  - reflexivity.
  - vm_compute. discriminate.
  - reflexivity.
Defined.

(** * The handlers *)

Lemma truthy_lookup_false (cells : Board) i :
  (i < length cells)%nat -> truthy (cells !! i) = false ->
  cells !! i = Some None.
Proof.
  intros Hi. destruct (lookup_lt_is_Some_2 cells i Hi) as [c Hc].
  rewrite Hc. by destruct c.
Qed.

Lemma makeAIMove_Some fuel gs update :
  (count_empty (board gs) <= fuel)%nat ->
  makeAIMove fuel gs = Some update ->
  currentPlayer gs = X /\ winner gs = None /\ isDraw gs = false
  /\ exists k,
       board gs !! k = Some None
       /\ getBestMove fuel (board gs) = Some (board gs, Z.of_nat k)
       /\ update = fun prev =>
            {| board := <[k := Some X]> (board gs);
               currentPlayer := O;
               winner := winner prev;
               isDraw := isDraw prev;
               scores := scores prev;
               isAgainstAI := isAgainstAI prev |}.
Proof.
  intros Hf. unfold makeAIMove.
  destruct (currentPlayer gs); simpl; [|done].
  destruct (winner gs) as [w|]; simpl; [done|].
  destruct (isDraw gs); simpl; [done|].
  destruct (getBestMove_empty_cell fuel (board gs) Hf)
    as [[_ ->]|(k & Hk & ->)]; simpl; [done|].
  apply elem_of_emptyCells in Hk.
  replace (Z.of_nat k =? -1) with false by (symmetry; apply Z.eqb_neq; lia).
  simpl. rewrite Nat2Z.id. intros [= <-]. eauto 10.
Qed.

(** X6. [makeAIMove] leaves the state alone exactly when it is not the turn
    of X, a result is recorded, or no cell is empty, the case in which
    [getBestMove] returns -1.  Otherwise it puts one X on an empty cell of
    the board and passes the turn to O, changing nothing else. *)
Theorem makeAIMove_moves_once fuel gs :
  (count_empty (board gs) <= fuel)%nat ->
  (makeAIMove fuel gs = None <->
     currentPlayer gs <> X \/ winner gs <> None \/ isDraw gs = true
     \/ isBoardFull (board gs) = true)
  /\ (forall update, makeAIMove fuel gs = Some update ->
        exists k,
          board gs !! k = Some None
          /\ forall prev,
               update prev
               = {| board := <[k := Some X]> (board gs);
                    currentPlayer := O;
                    winner := winner prev;
                    isDraw := isDraw prev;
                    scores := scores prev;
                    isAgainstAI := isAgainstAI prev |}).
Proof.
  intros Hf. split.
  - destruct (makeAIMove fuel gs) as [u|] eqn:E.
    + apply makeAIMove_Some in E as (Hp & Hw & Hd & k & Hk & _); [|done].
      split; [done|]. intros [H|[H|[H|H]]]; try congruence.
      by destruct (proj1 (isBoardFull_true _) H k).
    + split; [|done]. intros _. revert E. unfold makeAIMove.
      destruct (currentPlayer gs); simpl; [|by left].
      destruct (winner gs) as [w|]; simpl; [by right; left|].
      destruct (isDraw gs); simpl; [by right; right; left|].
      destruct (getBestMove_empty_cell fuel (board gs) Hf)
        as [[He _]|(k & Hk & ->)]; simpl.
      * intros _. right. right. right. by apply emptyCells_nil.
      * replace (Z.of_nat k =? -1) with false
          by (symmetry; apply Z.eqb_neq; lia).
        done.
  - intros u E.
    apply makeAIMove_Some in E as (_ & _ & _ & k & Hk & _ & ->); [|done].
    exists k. split; [done|]. reflexivity.
Qed.

Lemma makeAIMove_moves_once_witness :
  makeAIMove 9 initialState = None <->
  currentPlayer initialState <> X \/ winner initialState <> None
  \/ isDraw initialState = true \/ isBoardFull (board initialState) = true.
Proof.
  apply (makeAIMove_moves_once 9 initialState). simpl. lia.
Defined.

(** X7. No handler but [resetGame] alters a marked cell: an accepted click,
    the move of the AI, the winner effect and [resetScores] keep every mark
    of the board. *)
Theorem handlers_keep_marks fuel gs j p :
  (count_empty (board gs) <= fuel)%nat ->
  board gs !! j = Some (Some p) ->
  (forall index update,
      handleCellClick gs index = Some update ->
      board (update gs) !! j = Some (Some p))
  /\ (forall update,
        makeAIMove fuel gs = Some update ->
        board (update gs) !! j = Some (Some p))
  /\ (forall update,
        winnerEffect gs = Some update ->
        board (update gs) !! j = Some (Some p))
  /\ board (resetScores gs) !! j = Some (Some p).
Proof.
  intros Hf Hj. split; [|split; [|split; [|done]]].
  - intros index u. unfold handleCellClick, clickRejected.
    destruct (truthy (board gs !! index)) eqn:Et; simpl; [done|].
    destruct (_ || _ || _); [done|]. intros [= <-]. simpl.
    rewrite list_lookup_insert_ne; [done|]. intros ->.
    by rewrite Hj in Et.
  - intros u E.
    apply makeAIMove_Some in E as (_ & _ & _ & k & Hk & _ & ->); [|done].
    simpl. rewrite list_lookup_insert_ne; [done|]. congruence.
  - intros u. unfold winnerEffect. destruct (_ || _); [|done].
    by intros [= <-].
Qed.

Lemma handlers_keep_marks_witness :
  board (resetScores
           {| board := board_one_threat; currentPlayer := X; winner := None;
              isDraw := false; scores := {| scoreX := 2; scoreO := 0 |};
              isAgainstAI := true |}) !! 1%nat = Some (Some O).
Proof.
  apply (handlers_keep_marks 9
           {| board := board_one_threat; currentPlayer := X; winner := None;
              isDraw := false; scores := {| scoreX := 2; scoreO := 0 |};
              isAgainstAI := true |} 1 O).
  - simpl. lia.
  - reflexivity.
Defined.

(** X8. The button of a cell is disabled exactly when a click on that cell
    would be ignored. *)
Theorem disabled_iff_click_ignored gs index tile :
  board gs !! index = Some tile ->
  cellDisabled gs tile = true <-> handleCellClick gs index = None.
Proof.
  intros Ht. unfold handleCellClick, clickRejected, cellDisabled.
  rewrite Ht. destruct (_ || _ || _ || _); intuition congruence.
Qed.

Lemma disabled_iff_click_ignored_witness :
  cellDisabled initialState None = true
  <-> handleCellClick initialState 4 = None.
Proof.
  apply (disabled_iff_click_ignored initialState 4 None). reflexivity.
Defined.

(** * Sessions *)

Arguments minimax_plain : simpl never.

Lemma count_mark_insert p q (cells : Board) i :
  cells !! i = Some None ->
  count_mark p (<[i := Some q]> cells)
  = if Player_eqb p q then S (count_mark p cells) else count_mark p cells.
Proof.
  revert i. induction cells as [|c rest IH]; intros [|i] Hi; simpl in *;
    try discriminate.
  - by injection Hi as ->.
  - rewrite (IH i Hi). destruct c as [r|]; [|done].
    by destruct (Player_eqb p r), (Player_eqb p q).
Qed.

Lemma full_count_marks (cells : Board) :
  isBoardFull cells = true ->
  (count_mark X cells + count_mark O cells = length cells)%nat.
Proof.
  induction cells as [|[[|]|] rest IH]; simpl; try done; intros H;
    specialize (IH H); lia.
Qed.

Lemma has_line_O_insert_X (cells : Board) k :
  cells !! k = Some None ->
  has_line O cells = false -> has_line O (<[k := Some X]> cells) = false.
Proof.
  intros Hk Hno. destruct (has_line O (<[k := Some X]> cells)) eqn:E; [|done].
  apply has_line_insert_other in E; [congruence | done | done].
Qed.

Lemma checkOutcome_Undecided (cells : Board) :
  evaluate cells = Undecided <-> checkOutcome cells = (None, false).
Proof.
  rewrite evaluate_Undecided_iff. unfold checkOutcome.
  destruct (checkWinnerForMiniMax cells) as [w|]; simpl;
    [intuition congruence|].
  destruct (isBoardFull cells); intuition congruence.
Qed.

Lemma winnerEffect_dispatch gs :
  has_line O (board gs) = false ->
  (winner gs, isDraw gs) = (None, false) ->
  let gs' := dispatch (winnerEffect gs) gs in
  board gs' = board gs
  /\ currentPlayer gs' = currentPlayer gs
  /\ (winner gs', isDraw gs') = checkOutcome (board gs)
  /\ scoreO (scores gs') = scoreO (scores gs)
  /\ scoreX (scores gs')
     = match checkWinnerForMiniMax (board gs) with
       | Some X => scoreX (scores gs) + 1
       | _ => scoreX (scores gs)
       end.
Proof.
  intros Hno Hflags. unfold winnerEffect, checkOutcome.
  destruct (checkWinnerForMiniMax (board gs)) as [[|]|] eqn:Ew; simpl.
  - done.
  - apply checkWinner_Some in Ew. congruence.
  - destruct (isBoardFull (board gs)); simpl; done.
Qed.

(** The round after a render with a new board, from a state in which X is to
    move: the effect finds nothing, the AI moves, the effect runs again. *)
Lemma afterBoardChange_shape fuel gs :
  (9 <= fuel)%nat -> aiToMove gs ->
  exists k,
    board gs !! k = Some None
    /\ nonneg (minimax_plain (<[k := Some X]> (board gs)) 0 false)
    /\ afterBoardChange fuel gs
       = dispatch
           (winnerEffect
              {| board := <[k := Some X]> (board gs);
                 currentPlayer := O;
                 winner := winner gs;
                 isDraw := isDraw gs;
                 scores := scores gs;
                 isAgainstAI := isAgainstAI gs |})
           {| board := <[k := Some X]> (board gs);
              currentPlayer := O;
              winner := winner gs;
              isDraw := isDraw gs;
              scores := scores gs;
              isAgainstAI := isAgainstAI gs |}.
Proof.
  intros Hf (Hlen & Hp & Hw & Hd & Hu & Hcnt & Hs & Hsc).
  pose proof (count_empty_le_length (board gs)) as Hce.
  pose proof (proj1 (evaluate_Undecided_iff _) Hu) as [Hwin Hfull].
  destruct (getBestMove_safe_move (board gs) ltac:(lia) Hu Hs)
    as (k & Hk & Hek & Hn).
  exists k. split; [done|]. split; [done|].
  unfold afterBoardChange.
  assert (Hwe : winnerEffect gs = None).
  { unfold winnerEffect. by rewrite Hwin, Hfull. }
  rewrite Hwe. cbn [dispatch].
  unfold makeAIMove. rewrite Hp, Hw, Hd. cbn [Player_eqb truthy negb andb].
  rewrite getBestMove_is_plain by lia. rewrite Hk.
  replace (Z.of_nat k =? -1) with false
    by (symmetry; apply Z.eqb_neq; lia).
  simpl. by rewrite Nat2Z.id, ?Hw, ?Hd.
Qed.

Lemma afterBoardChange_settled fuel gs :
  (9 <= fuel)%nat -> aiToMove gs -> settled (afterBoardChange fuel gs).
Proof.
  intros Hf Hai.
  destruct (afterBoardChange_shape fuel gs Hf Hai) as (k & Hek & Hn & ->).
  destruct Hai as (Hlen & Hp & Hw & Hd & Hu & Hcnt & Hs & Hsc).
  pose proof (proj1 (evaluate_Undecided_iff _) Hu) as [Hwin Hfull].
  pose proof (proj1 (checkWinner_None _) Hwin) as Hno.
  set (moved := {| board := <[k := Some X]> (board gs);
                   currentPlayer := O;
                   winner := winner gs;
                   isDraw := isDraw gs;
                   scores := scores gs;
                   isAgainstAI := isAgainstAI gs |}).
  assert (HnoO : has_line O (board moved) = false)
    by (apply has_line_O_insert_X; [done | apply Hno]).
  destruct (winnerEffect_dispatch moved HnoO) as (Hb & Hcp & Hfl & Hso & _).
  { simpl. by rewrite Hw, Hd. }
  unfold settled. rewrite Hb, Hcp, Hfl, Hso. simpl.
  rewrite length_insert, !count_mark_insert by done. simpl.
  repeat split; try done; lia.
Qed.

(** A round gives X one point exactly when it ends with X recorded as the
    winner. *)
Lemma afterBoardChange_score fuel gs :
  (9 <= fuel)%nat -> aiToMove gs ->
  scoreX (scores (afterBoardChange fuel gs))
  = match winner (afterBoardChange fuel gs) with
    | Some X => scoreX (scores gs) + 1
    | _ => scoreX (scores gs)
    end.
Proof.
  intros Hf Hai.
  destruct (afterBoardChange_shape fuel gs Hf Hai) as (k & Hek & Hn & ->).
  destruct Hai as (Hlen & Hp & Hw & Hd & Hu & Hcnt & Hs & Hsc).
  pose proof (proj1 (evaluate_Undecided_iff _) Hu) as [Hwin Hfull].
  pose proof (proj1 (checkWinner_None _) Hwin) as Hno.
  set (moved := {| board := <[k := Some X]> (board gs);
                   currentPlayer := O;
                   winner := winner gs;
                   isDraw := isDraw gs;
                   scores := scores gs;
                   isAgainstAI := isAgainstAI gs |}).
  assert (HnoO : has_line O (board moved) = false)
    by (apply has_line_O_insert_X; [done | apply Hno]).
  destruct (winnerEffect_dispatch moved HnoO) as (_ & _ & Hfl & _ & Hsx).
  { simpl. by rewrite Hw, Hd. }
  rewrite Hsx. injection Hfl as -> _. done.
Qed.

Lemma Some_snd_inj {A B} (a a' : A) (b b' : B) :
  Some (a, b) = Some (a', b') -> b = b'.
Proof. intros H. by injection H. Qed.

Lemma emptyBoard_notLost : nonneg (minimax_plain emptyBoard 0 true).
Proof.
  assert (H : minimax 10 emptyBoard 0 true NegInf PosInf
              = Some (emptyBoard, Fin 0)) by (vm_compute; reflexivity).
  rewrite minimax_is_plain in H by (apply Nat.lt_succ_diag_r).
  apply Some_snd_inj in H. rewrite H. unfold nonneg, num_le. lia.
Qed.

Lemma resetGame_aiToMove gs :
  scoreO (scores gs) = 0 -> aiToMove (resetGame gs).
Proof.
  intros Hsc. unfold aiToMove, resetGame. cbn [board currentPlayer winner
    isDraw scores]. change (replicate 9 None) with emptyBoard.
  split; [reflexivity|]. split; [reflexivity|]. split; [reflexivity|].
  split; [reflexivity|]. split; [reflexivity|]. split; [reflexivity|].
  split; [apply emptyBoard_notLost | exact Hsc].
Qed.

Lemma initialState_aiToMove : aiToMove initialState.
Proof. apply (resetGame_aiToMove initialState). reflexivity. Qed.

Lemma click_aiToMove gs index update :
  settled gs -> (index < 9)%nat ->
  handleCellClick gs index = Some update ->
  aiToMove (update gs).
Proof.
  intros (Hlen & Hp & Hcnt & HnoO & Hfl & Hs & Hsc) Hi.
  unfold handleCellClick, clickRejected.
  destruct (truthy (board gs !! index)) eqn:Et; simpl; [done|].
  destruct (winner gs) as [w|] eqn:Ew; simpl; [done|].
  destruct (isDraw gs) eqn:Ed; simpl; [done|].
  rewrite Hp. simpl. intros [= <-].
  apply truthy_lookup_false in Et; [|lia].
  pose proof (proj2 (checkOutcome_Undecided _) (eq_sym Hfl)) as Hu.
  pose proof (proj1 (evaluate_Undecided_iff _) Hu) as [Hwin Hfull].
  pose proof (count_empty_le_length (board gs)) as Hce.
  destruct (reply_safe (board gs) index ltac:(lia) Hu (Hs Hu) Et)
    as [Hwin' Hn'].
  unfold aiToMove. simpl.
  rewrite length_insert, !count_mark_insert by done. simpl.
  repeat split; try done.
  apply evaluate_Undecided_iff. split; [done|].
  destruct (isBoardFull (<[index := Some O]> (board gs))) eqn:Ef; [|done].
  apply full_count_marks in Ef.
  rewrite length_insert, !count_mark_insert in Ef by done. simpl in Ef. lia.
Qed.

Lemma step_settled fuel gs ev :
  (9 <= fuel)%nat -> validEvent ev -> settled gs -> settled (step fuel gs ev).
Proof.
  intros Hf Hv Hs. destruct ev as [index| |]; simpl.
  - destruct (handleCellClick gs index) as [u|] eqn:E; [|done].
    apply afterBoardChange_settled; [done|]. by eapply click_aiToMove.
  - apply afterBoardChange_settled; [done|].
    apply resetGame_aiToMove. apply Hs.
  - destruct Hs as (H1 & H2 & H3 & H4 & H5 & H6 & H7). by repeat split.
Qed.

Lemma session_settled fuel events :
  (9 <= fuel)%nat -> Forall validEvent events -> settled (session fuel events).
Proof.
  intros Hf. unfold session.
  assert (H0 : settled (afterBoardChange fuel initialState))
    by (apply afterBoardChange_settled; [done | apply initialState_aiToMove]).
  revert H0. generalize (afterBoardChange fuel initialState).
  induction events as [|ev rest IH]; intros gs Hs Hv; simpl; [done|].
  apply Forall_cons in Hv as [Hev Hrest].
  apply IH; [|done]. by apply step_settled.
Qed.

(** X9. The AI never loses.  In every session of clicks on the nine cells,
    new games and score resets, O never has three in a row, the winner
    recorded is never O, and the score of O stays 0. *)
Theorem ai_never_loses fuel events :
  (9 <= fuel)%nat ->
  Forall validEvent events ->
  has_line O (board (session fuel events)) = false
  /\ winner (session fuel events) <> Some O
  /\ scoreO (scores (session fuel events)) = 0.
Proof.
  intros Hf Hv.
  destruct (session_settled fuel events Hf Hv)
    as (_ & _ & _ & HnoO & Hfl & _ & Hsc).
  split; [done|]. split; [|done].
  injection Hfl as Hw _. rewrite Hw. intros E.
  apply checkWinner_Some in E. congruence.
Qed.

Lemma ai_never_loses_witness :
  has_line O (board (session 9 [Click 4; Click 2; NewGame; Click 0]%nat))
  = false
  /\ winner (session 9 [Click 4; Click 2; NewGame; Click 0]%nat) <> Some O
  /\ scoreO (scores (session 9 [Click 4; Click 2; NewGame; Click 0]%nat)) = 0.
Proof.
  apply (ai_never_loses 9 [Click 4; Click 2; NewGame; Click 0]%nat).
  - lia.
  - repeat constructor; simpl; lia.
Defined.

(** X10. In every session the result shown is the result of the board: the
    recorded winner and draw flag are those the evaluator computes for the
    current board, so a win and a draw are never shown together and no
    result is shown while the game is undecided. *)
Theorem status_matches_board fuel events :
  (9 <= fuel)%nat ->
  Forall validEvent events ->
  (winner (session fuel events), isDraw (session fuel events))
  = checkOutcome (board (session fuel events))
  /\ (winner (session fuel events) <> None ->
      isDraw (session fuel events) = false)
  /\ (evaluate (board (session fuel events)) = Undecided ->
      winner (session fuel events) = None
      /\ isDraw (session fuel events) = false).
Proof.
  intros Hf Hv.
  destruct (session_settled fuel events Hf Hv) as (_ & _ & _ & _ & Hfl & _).
  split; [done|]. split.
  - injection Hfl as Hw Hd. rewrite Hw, Hd.
    by destruct (checkWinnerForMiniMax _).
  - intros Hu. apply checkOutcome_Undecided in Hu. rewrite Hu in Hfl.
    by injection Hfl.
Qed.

Lemma status_matches_board_witness :
  (winner (session 9 [Click 4; Click 2]%nat),
   isDraw (session 9 [Click 4; Click 2]%nat))
  = checkOutcome (board (session 9 [Click 4; Click 2]%nat))
  /\ (winner (session 9 [Click 4; Click 2]%nat) <> None ->
      isDraw (session 9 [Click 4; Click 2]%nat) = false)
  /\ (evaluate (board (session 9 [Click 4; Click 2]%nat)) = Undecided ->
      winner (session 9 [Click 4; Click 2]%nat) = None
      /\ isDraw (session 9 [Click 4; Click 2]%nat) = false).
Proof.
  apply (status_matches_board 9 [Click 4; Click 2]%nat).
  - lia.
  - repeat constructor; simpl; lia.
Defined.

(** X11. In every session the board keeps its nine cells, the AI has
    answered every move, so that it is the turn of O, and X has one mark
    more than O. *)
Theorem session_turn_and_marks fuel events :
  (9 <= fuel)%nat ->
  Forall validEvent events ->
  length (board (session fuel events)) = 9%nat
  /\ currentPlayer (session fuel events) = O
  /\ count_mark X (board (session fuel events))
     = S (count_mark O (board (session fuel events))).
Proof.
  intros Hf Hv.
  by destruct (session_settled fuel events Hf Hv) as (H1 & H2 & H3 & _).
Qed.

Lemma session_turn_and_marks_witness :
  length (board (session 9 [Click 4; ClearScores; Click 2]%nat)) = 9%nat
  /\ currentPlayer (session 9 [Click 4; ClearScores; Click 2]%nat) = O
  /\ count_mark X (board (session 9 [Click 4; ClearScores; Click 2]%nat))
     = S (count_mark O (board (session 9 [Click 4; ClearScores; Click 2]%nat))).
Proof.
  apply (session_turn_and_marks 9 [Click 4; ClearScores; Click 2]%nat).
  - lia.
  - repeat constructor; simpl; lia.
Defined.

(** X12. A click that is accepted, or a new game, changes the score of X by
    one point exactly when the round ends with X recorded as the winner;
    otherwise the score of X is unchanged. *)
Theorem ai_score_counts_wins fuel events ev :
  (9 <= fuel)%nat ->
  Forall validEvent events ->
  validEvent ev ->
  (ev = NewGame
   \/ exists index, ev = Click index
                    /\ handleCellClick (session fuel events) index <> None) ->
  scoreX (scores (step fuel (session fuel events) ev))
  = match winner (step fuel (session fuel events) ev) with
    | Some X => scoreX (scores (session fuel events)) + 1
    | _ => scoreX (scores (session fuel events))
    end.
Proof.
  intros Hf Hv Hev Hkind.
  pose proof (session_settled fuel events Hf Hv) as Hs.
  destruct Hkind as [->|(index & -> & Hacc)]; simpl.
  - rewrite afterBoardChange_score; [done | done |].
    apply resetGame_aiToMove. apply Hs.
  - destruct (handleCellClick (session fuel events) index) as [u|] eqn:E;
      [|done].
    pose proof (click_aiToMove _ index u Hs Hev E) as Hai.
    rewrite afterBoardChange_score by done.
    revert E. unfold handleCellClick.
    destruct (clickRejected _ _); [done|]. by intros [= <-].
Qed.

Lemma ai_score_counts_wins_witness :
  scoreX (scores (step 9 (session 9 [Click 1]%nat) (Click 2)))
  = match winner (step 9 (session 9 [Click 1]%nat) (Click 2)) with
    | Some X => scoreX (scores (session 9 [Click 1]%nat)) + 1
    | _ => scoreX (scores (session 9 [Click 1]%nat))
    end.
Proof.
  apply (ai_score_counts_wins 9 [Click 1]%nat (Click 2)).
  - lia.
  - repeat constructor; simpl; lia.
  - simpl. lia.
  - right. exists 2%nat. split; [reflexivity|]. vm_compute. discriminate.
Defined.
